(** * rtsp-web-viewer: the frame fan-out and stream-lifecycle engine

    A shallow embedding of [rtsp-stream.js]: the server side (client
    registry, broadcaster, lifecycle controller, configuration merge and
    stats) as functions over an explicit process state, and the consumer
    side ([RTSPPlayer]'s frame handler) as a second, smaller machine.

    The decoder ([rtspFFmpeg.FFMpeg]), the socket transport and the browser
    canvas are external: the calls made on them are recorded in a log of
    actions, and the events they raise drive the step relation. *)

From Stdlib Require Import ZArith QArith Qround Qminmax List Lia Lqa.
From stdpp Require Import gmap strings list fin_maps.

Local Open Scope Z_scope.

(** ** JavaScript values, as far as the configuration object needs them.
    Numbers are integers: the declared fields ([frameRate], [quality],
    [port]) are integral. *)

#[local] Unset Elimination Schemes.
Inductive jsval : Type :=
| JUndef
| JNull
| JBool (b : bool)
| JNum (n : Z)
| JStr (s : string)
| JArr (xs : list jsval)
| JObj (fields : list (string * jsval)).
#[local] Set Elimination Schemes.

(** [!!v] *)
Definition truthy (v : jsval) : bool :=
  match v with
  | JUndef | JNull => false
  | JBool b => b
  | JNum n => negb (n =? 0)
  | JStr s => negb (String.eqb s "")
  | JArr _ | JObj _ => true
  end.

(** [a || b] *)
Definition js_or (a b : jsval) : jsval := if truthy a then a else b.

(** Property read [o.k] on an object held as a finite map. *)
Definition js_get (o : gmap string jsval) (k : string) : jsval :=
  default JUndef (o !! k).

(** [{ ...a, ...b }]: own properties of [b] win over those of [a]. *)
Definition js_spread (a b : gmap string jsval) : gmap string jsval := b ∪ a.

(** Strings are held as their UTF-8 bytes: a byte [10xxxxxx] continues the
    code point begun before it. *)
Definition is_continuation (c : Ascii.ascii) : bool :=
  (128 <=? Ascii.nat_of_ascii c)%nat && (Ascii.nat_of_ascii c <? 192)%nat.

(** What iterating a string yields: its code points, one string each. *)
Fixpoint chars (s : string) : list jsval :=
  match s with
  | EmptyString => []
  | String c r =>
      match chars r with
      | JStr (String c' x) :: rest =>
          if is_continuation c'
          then JStr (String c (String c' x)) :: rest
          else JStr (String c EmptyString) :: JStr (String c' x) :: rest
      | rest => JStr (String c EmptyString) :: rest
      end
  end.

(** Array spread [...v]: arrays and strings are iterable, nothing else in
    [jsval] is ([None] is the [TypeError] path). *)
Definition js_iterate (v : jsval) : option (list jsval) :=
  match v with
  | JArr xs => Some xs
  | JStr s => Some (chars s)
  | _ => None
  end.

(** [s.includes(pat)] *)
Definition includes (s pat : string) : bool :=
  match String.index 0 pat s with Some _ => true | None => false end.

Module Server.

(** A frame is the opaque buffer handed over by the decoder. *)
Definition frame : Type := list Byte.byte.

(** The decoder instance, as much of it as this file's code can see: the
    options it was built with, whether the handlers of [createStream] are
    attached, and whether the last lifecycle call on it was [start]
    ([stop] and a terminal error both end the run). *)
Record FFMpeg : Type := mkFFMpeg {
  fs_id : nat;
  fs_input : jsval;
  fs_rate : jsval;
  fs_resolution : jsval;
  fs_quality : jsval;
  fs_arguments : list jsval;
  fs_running : bool;
  fs_listening : bool
}.

Definition fs_set_running (b : bool) (s : FFMpeg) : FFMpeg :=
  mkFFMpeg (fs_id s) (fs_input s) (fs_rate s) (fs_resolution s) (fs_quality s)
           (fs_arguments s) b (fs_listening s).

Definition fs_set_listening (b : bool) (s : FFMpeg) : FFMpeg :=
  mkFFMpeg (fs_id s) (fs_input s) (fs_rate s) (fs_resolution s) (fs_quality s)
           (fs_arguments s) (fs_running s) b.

(** The error object of the decoder's ['error'] event. *)
Record js_error : Type := mkError { message : string; code : jsval }.

(** Callbacks handed to [setTimeout] / [setInterval]. *)
Inductive task : Type :=
| TResetCounters
| TRestart
| TBatch (batchIndex : nat) (clientBatches : list (list string)) (frameData : frame)
| TReady.

Inductive payload : Type :=
| PConfig (c : gmap string jsval)
| PStatus (status : string)
| PStreamError (error : string) (errcode : jsval)
| PMessage (msg : string).

(** Calls on the external collaborators, in program order. *)
Inductive action : Type :=
| ANew (id : nat)
| ARemoveAllListeners (id : nat)
| AStop (id : nat)
| AStart (id : nat)
| AIoEmit (ev : string) (p : payload)
| ASocketEmit (client : string) (ev : string) (p : payload)
| AVolatileEmit (client : string) (f : frame)
| ASetTimeout (ms : Z) (t : task).

Inductive exn : Type :=
| TypeError (what : string).

(** The module-level variables of [rtsp-stream.js], the socket table of
    [io.sockets.sockets] (client id to [connected]), the clock and the
    pending timers (deadline, callback). [activeClients] is a [Set]: a
    list without duplicates in insertion order. *)
Record state : Type := mkState {
  activeConfig : gmap string jsval;
  stream : option FFMpeg;
  activeClients : list string;
  frameCount : Z;
  totalFrames : Z;
  lastFrameTime : Z;
  lastCounterReset : Z;
  frameQueues : gmap string (list frame);
  sockets : gmap string bool;
  now : Z;
  timers : list (Z * task);
  next_id : nat
}.

Definition set_activeConfig (c : gmap string jsval) (s : state) : state :=
  mkState c (stream s) (activeClients s) (frameCount s) (totalFrames s)
          (lastFrameTime s) (lastCounterReset s) (frameQueues s) (sockets s)
          (now s) (timers s) (next_id s).
Definition set_stream (x : option FFMpeg) (s : state) : state :=
  mkState (activeConfig s) x (activeClients s) (frameCount s) (totalFrames s)
          (lastFrameTime s) (lastCounterReset s) (frameQueues s) (sockets s)
          (now s) (timers s) (next_id s).
Definition set_activeClients (x : list string) (s : state) : state :=
  mkState (activeConfig s) (stream s) x (frameCount s) (totalFrames s)
          (lastFrameTime s) (lastCounterReset s) (frameQueues s) (sockets s)
          (now s) (timers s) (next_id s).
Definition set_frameCount (x : Z) (s : state) : state :=
  mkState (activeConfig s) (stream s) (activeClients s) x (totalFrames s)
          (lastFrameTime s) (lastCounterReset s) (frameQueues s) (sockets s)
          (now s) (timers s) (next_id s).
Definition set_totalFrames (x : Z) (s : state) : state :=
  mkState (activeConfig s) (stream s) (activeClients s) (frameCount s) x
          (lastFrameTime s) (lastCounterReset s) (frameQueues s) (sockets s)
          (now s) (timers s) (next_id s).
Definition set_lastFrameTime (x : Z) (s : state) : state :=
  mkState (activeConfig s) (stream s) (activeClients s) (frameCount s)
          (totalFrames s) x (lastCounterReset s) (frameQueues s) (sockets s)
          (now s) (timers s) (next_id s).
Definition set_lastCounterReset (x : Z) (s : state) : state :=
  mkState (activeConfig s) (stream s) (activeClients s) (frameCount s)
          (totalFrames s) (lastFrameTime s) x (frameQueues s) (sockets s)
          (now s) (timers s) (next_id s).
Definition set_frameQueues (x : gmap string (list frame)) (s : state) : state :=
  mkState (activeConfig s) (stream s) (activeClients s) (frameCount s)
          (totalFrames s) (lastFrameTime s) (lastCounterReset s) x (sockets s)
          (now s) (timers s) (next_id s).
Definition set_sockets (x : gmap string bool) (s : state) : state :=
  mkState (activeConfig s) (stream s) (activeClients s) (frameCount s)
          (totalFrames s) (lastFrameTime s) (lastCounterReset s)
          (frameQueues s) x (now s) (timers s) (next_id s).
Definition set_now (x : Z) (s : state) : state :=
  mkState (activeConfig s) (stream s) (activeClients s) (frameCount s)
          (totalFrames s) (lastFrameTime s) (lastCounterReset s)
          (frameQueues s) (sockets s) x (timers s) (next_id s).
Definition set_timers (x : list (Z * task)) (s : state) : state :=
  mkState (activeConfig s) (stream s) (activeClients s) (frameCount s)
          (totalFrames s) (lastFrameTime s) (lastCounterReset s)
          (frameQueues s) (sockets s) (now s) x (next_id s).
Definition set_next_id (x : nat) (s : state) : state :=
  mkState (activeConfig s) (stream s) (activeClients s) (frameCount s)
          (totalFrames s) (lastFrameTime s) (lastCounterReset s)
          (frameQueues s) (sockets s) (now s) (timers s) x.

(** ** The effect monad: process state, the log of external calls, and
    JavaScript exceptions (state changes made before a [throw] stay). *)

Definition M (A : Type) : Type := state → (exn + A) * state * list action.

Definition ret {A} (x : A) : M A := λ s, (inr x, s, []).

Definition bind {A B} (m : M A) (f : A → M B) : M B := λ s,
  match m s with
  | (inl e, s1, a1) => (inl e, s1, a1)
  | (inr x, s1, a1) =>
      match f x s1 with
      | (r, s2, a2) => (r, s2, a1 ++ a2)
      end
  end.

Definition throw {A} (e : exn) : M A := λ s, (inl e, s, []).

(** [try { m } catch (e) { h e }] *)
Definition try_catch {A} (m : M A) (h : exn → M A) : M A := λ s,
  match m s with
  | (inl e, s1, a1) =>
      match h e s1 with
      | (r, s2, a2) => (r, s2, a1 ++ a2)
      end
  | r => r
  end.

Definition get : M state := λ s, (inr s, s, []).
Definition modify (f : state → state) : M unit := λ s, (inr tt, f s, []).
Definition call (a : action) : M unit := λ s, (inr tt, s, [a]).

#[global] Instance M_ret : MRet M := @ret.
#[global] Instance M_bind : MBind M := λ A B f m, bind m f.

Fixpoint for_of {A} (xs : list A) (body : A → M unit) : M unit :=
  match xs with
  | [] => ret tt
  | x :: rest => body x ;; for_of rest body
  end.

Definition post_state {A} (r : (exn + A) * state * list action) : state := r.1.2.
Definition calls {A} (r : (exn + A) * state * list action) : list action := r.2.
Definition outcome {A} (r : (exn + A) * state * list action) : exn + A := r.1.1.

(** [setTimeout(cb, ms)] *)
Definition setTimeout (t : task) (ms : Z) : M unit :=
  s ← get;
  modify (set_timers (timers s ++ [(now s + ms, t)])) ;;
  call (ASetTimeout ms t).

(** ** Configuration *)

Definition defaultConfig : gmap string jsval :=
  <["rtspUrl" := JStr "rtsp://your-rtsp-url"]>
  (<["transport" := JStr "udp"]>
  (<["frameRate" := JNum 15]>
  (<["resolution" := JStr "640x360"]>
  (<["quality" := JNum 3]>
  (<["port" := JNum 3000]>
  (<["ffmpegOptions" :=
       JArr [JStr "-fflags"; JStr "nobuffer"; JStr "-flags"; JStr "low_delay"]]>
   ∅)))))).

Definition MAX_QUEUE_SIZE : nat := 3.
Definition MAX_CLIENTS_PER_FRAME : nat := 10.

(** ** Stream functions *)

(** [stream.start()], [stream.stop()], [stream.removeAllListeners()]: method
    calls on the object held in the variable [stream]. *)
Definition stream_method (f : FFMpeg → FFMpeg) (a : nat → action) : M unit :=
  s ← get;
  match stream s with
  | Some x => modify (set_stream (Some (f x))) ;; call (a (fs_id x))
  | None => throw (TypeError "Cannot read properties of null")
  end.

Definition stream_start : M unit := stream_method (fs_set_running true) AStart.
Definition stream_stop : M unit := stream_method (fs_set_running false) AStop.
Definition stream_removeAllListeners : M unit :=
  stream_method (fs_set_listening false) ARemoveAllListeners.

Definition createStream (config : gmap string jsval) : M FFMpeg :=
  s ← get;
  (if stream s is Some _
   then try_catch (stream_removeAllListeners ;; stream_stop) (λ _, ret tt)
   else ret tt) ;;
  (* const ffmpegArgs = ['-rtsp_transport', config.transport, ...config.ffmpegOptions] *)
  ffmpegArgs ←
    match js_iterate (js_get config "ffmpegOptions") with
    | Some opts => ret (JStr "-rtsp_transport" :: js_get config "transport" :: opts)
    | None => throw (TypeError "config.ffmpegOptions is not iterable")
    end;
  s ← get;
  let inst := mkFFMpeg (next_id s)
                (js_get config "rtspUrl") (js_get config "frameRate")
                (js_get config "resolution") (js_get config "quality")
                ffmpegArgs false true in
  modify (λ s, set_next_id (S (next_id s)) (set_stream (Some inst) s)) ;;
  call (ANew (fs_id inst)) ;;
  ret inst.

Definition js_pop {A} (q : list A) : option A * list A :=
  (last q, removelast q).

Definition queueFrameForClient (clientId : string) (frameData : frame) : M unit :=
  s ← get;
  match sockets s !! clientId with
  | Some true =>
      (* get or create the queue, push, trim to MAX_QUEUE_SIZE *)
      let queue := default [] (frameQueues s !! clientId) in
      let queue := queue ++ [frameData] in
      let queue :=
        if bool_decide (MAX_QUEUE_SIZE < length queue)%nat
        then drop (length queue - MAX_QUEUE_SIZE)%nat queue else queue in
      (* if (queue.length > 0 && socket.connected): send the newest, clear *)
      if bool_decide (0 < length queue)%nat then
        match js_pop queue with
        | (Some frameToSend, _) =>
            modify (set_frameQueues (<[clientId := []]> (frameQueues s))) ;;
            call (AVolatileEmit clientId frameToSend)
        | (None, _) =>
            (* pop() of an empty array: excluded by the guard *)
            modify (set_frameQueues (<[clientId := []]> (frameQueues s)))
        end
      else modify (set_frameQueues (<[clientId := queue]> (frameQueues s)))
  | _ => ret tt
  end.

Definition processClientBatch (batchIndex : nat) (clientBatches : list (list string))
    (frameData : frame) : M unit :=
  match clientBatches !! batchIndex with
  | None => ret tt
  | Some batch =>
      for_of batch (λ clientId, queueFrameForClient clientId frameData) ;;
      if bool_decide (batchIndex + 1 < length clientBatches)%nat
      then setTimeout (TBatch (batchIndex + 1) clientBatches frameData) 5
      else ret tt
  end.

(** The grouping loop of [handleNewFrame]. *)
Fixpoint batch_loop (clients : list string) (clientBatches : list (list string))
    (currentBatch : list string) : list (list string) * list string :=
  match clients with
  | [] => (clientBatches, currentBatch)
  | clientId :: rest =>
      let currentBatch := currentBatch ++ [clientId] in
      if bool_decide (MAX_CLIENTS_PER_FRAME ≤ length currentBatch)%nat
      then batch_loop rest (clientBatches ++ [currentBatch]) []
      else batch_loop rest clientBatches currentBatch
  end.

Definition group_clients (clients : list string) : list (list string) :=
  let '(clientBatches, currentBatch) := batch_loop clients [] [] in
  if bool_decide (0 < length currentBatch)%nat
  then clientBatches ++ [currentBatch] else clientBatches.

Definition handleNewFrame (frameData : frame) : M unit :=
  modify (λ s, set_totalFrames (totalFrames s + 1) s) ;;
  modify (λ s, set_frameCount (frameCount s + 1) s) ;;
  modify (λ s, set_lastFrameTime (now s) s) ;;
  s ← get;
  processClientBatch 0 (group_clients (activeClients s)) frameData.

Definition startStreamIfNeeded : M unit :=
  s ← get;
  if bool_decide (0 < length (activeClients s))%nat then
    (if stream s is Some _ then ret tt else createStream (activeConfig s) ;; ret tt) ;;
    try_catch stream_start (λ _, ret tt)
  else ret tt.

Definition stopStreamIfNoClients : M unit :=
  s ← get;
  if bool_decide (length (activeClients s) = 0%nat) && bool_decide (is_Some (stream s))
  then try_catch stream_stop (λ _, ret tt)
  else ret tt.

Definition updateStreamConfig (newConfig : gmap string jsval) : M (gmap string jsval) :=
  modify (λ s, set_activeConfig (js_spread (activeConfig s) newConfig) s) ;;
  s ← get;
  createStream (activeConfig s) ;;
  startStreamIfNeeded ;;
  s ← get;
  ret (activeConfig s).


(** [getStreamStats]. Times and counters are integers. A quotient is a
    double: [div64 a b] stands for the exact value of the double that [a / b]
    evaluates to, for an integer [a] and a double [b]. The division is a
    parameter of the functions below; [double_division] is what is taken
    for granted of it, each of the three facts being one that IEEE 754
    division, rounding to nearest, has on these operands. [Math.round] of a
    double is the floor of its exact value plus one half; comparisons,
    [Math.max] and [Math.min] are exact. *)
Definition Math_round (x : Q) : Z := Qfloor (x + (1 # 2)).
Definition Qltb (x y : Q) : bool := negb (Qle_bool y x).

(** Half an ulp, relative: 2^-53. *)
Definition unit_roundoff : Q := 1 # 9007199254740992.

Record double_division (div64 : Z → Q → Q) : Prop := {
  (* integers up to 2^53 are doubles; the quotient of one by a double in
     [1, 2^53] is in the normal range and is rounded to nearest *)
  div64_accurate : ∀ (a : Z) (b : Q),
    0 ≤ a ≤ 2 ^ 53 → (1 <= b)%Q → (b <= inject_Z (2 ^ 53))%Q →
    (inject_Z a * (1 - unit_roundoff) <= div64 a b * b
     ∧ div64 a b * b <= inject_Z a * (1 + unit_roundoff))%Q;
  (* rounding is monotone *)
  div64_monotone : ∀ (a a' : Z) (b : Q),
    (0 < b)%Q → a ≤ a' → (div64 a b <= div64 a' b)%Q;
  (* a quotient that is an integer is not rounded *)
  div64_exact : ∀ (q b : Z),
    0 < b → Z.abs (q * b) ≤ 2 ^ 53 →
    (div64 (q * b)%Z (inject_Z b) == inject_Z q)%Q
}.

Record stats : Type := mkStats {
  stats_activeClients : nat;
  stats_frameCount : Z;
  stats_totalFrames : Z;
  stats_currentFps : Z;
  stats_uptime : Z;
  stats_isActive : bool;
  stats_config : gmap string jsval
}.

(** [activeConfig.frameRate || 30], for a numeric or falsy [frameRate];
    other values are outside the integer model ([None]). *)
Definition maxConfigFps (config : gmap string jsval) : option Z :=
  match js_or (js_get config "frameRate") (JNum 30) with
  | JNum n => Some n
  | _ => None
  end.

Section Stats.
Context (div64 : Z → Q → Q).

Definition secondsElapsed (s : state) : Q :=
  div64 (now s - lastFrameTime s) 1000.

Definition timeSinceReset (s : state) : Q :=
  div64 (now s - lastCounterReset s) 1000.

Definition currentFps (s : state) : option Z :=
  if (0 <? frameCount s) && Qltb (secondsElapsed s) 5 then
    cap ← maxConfigFps (activeConfig s);
    Some (Z.min (Math_round (div64 (frameCount s) (Qmax 1 (timeSinceReset s)))) cap)
  else Some 0.

Definition getStreamStats (s : state) : option stats :=
  fps ← currentFps s;
  Some (mkStats
    (length (activeClients s))
    (frameCount s)
    (totalFrames s)
    fps
    (if stream s is Some _ then Math_round (timeSinceReset s) else 0)
    (bool_decide (is_Some (stream s)) && bool_decide (0 < length (activeClients s))%nat
       && Qltb (secondsElapsed s) 5)
    (activeConfig s)).

End Stats.

(** ** Event handlers *)

(** The handlers attached by [createStream]. *)
Definition classify (err : js_error) : string :=
  if includes (message err) "Connection refused"
  then "Failed to connect to RTSP stream: Connection refused"
  else if includes (message err) "Invalid data"
  then "Invalid RTSP stream URL or stream not accessible"
  else if includes (message err) "timeout"
  then "Stream connection timed out"
  else "Stream error occurred".

Definition on_stream_start : M unit :=
  modify (λ s, set_lastFrameTime (now s) s) ;;
  call (AIoEmit "stream-status" (PStatus "started")).

Definition on_stream_stop : M unit :=
  call (AIoEmit "stream-status" (PStatus "stopped")).

Definition on_stream_error (err : js_error) : M unit :=
  call (AIoEmit "stream-error"
          (PStreamError (classify err) (js_or (code err) (JStr "STREAM_ERROR")))) ;;
  s ← get;
  if bool_decide (0 < length (activeClients s))%nat
  then setTimeout TRestart 5000
  else ret tt.

(** The callback of the 5000 ms timer set by [on_stream_error]. *)
Definition restart_callback : M unit :=
  s ← get;
  if bool_decide (0 < length (activeClients s))%nat then
    try_catch startStreamIfNeeded
      (λ _, call (AIoEmit "stream-error"
                    (PStreamError "Failed to restart stream" (JStr "RESTART_FAILED"))))
  else ret tt.

(** The callback of [setInterval(..., 10000)]. *)
Definition reset_callback : M unit :=
  modify (set_frameCount 0) ;;
  modify (λ s, set_lastCounterReset (now s) s).

(** [Set.prototype.add], [Set.prototype.delete] *)
Definition set_add (x : string) (l : list string) : list string :=
  if bool_decide (x ∈ l) then l else l ++ [x].
Definition set_delete (x : string) (l : list string) : list string :=
  filter (λ y, y ≠ x) l.

(** [io.on('connection', socket => ...)] up to the handler registrations. *)
Definition on_connection (id : string) : M unit :=
  modify (λ s, set_activeClients (set_add id (activeClients s)) s) ;;
  s ← get;
  call (ASocketEmit id "config" (PConfig (activeConfig s))) ;;
  if bool_decide (length (activeClients s) = 1%nat)
  then startStreamIfNeeded
  else ret tt.

Definition on_update_config (id : string) (newConfig : gmap string jsval) : M unit :=
  try_catch
    (updatedConfig ← updateStreamConfig newConfig;
     call (AIoEmit "config" (PConfig updatedConfig)) ;;
     call (AIoEmit "stream-status" (PStatus "restarting")) ;;
     setTimeout TReady 1000)
    (λ _, call (ASocketEmit id "error"
                  (PMessage "Failed to update stream configuration"))).

Definition on_disconnect (id : string) : M unit :=
  modify (λ s, set_activeClients (set_delete id (activeClients s)) s) ;;
  modify (λ s, set_frameQueues (delete id (frameQueues s)) s) ;;
  stopStreamIfNoClients.

(** ** API routes *)

Inductive http_response : Type :=
| Json200 (config : gmap string jsval)   (* { success: true, config } *)
| Json400 (error : string).              (* status 400, { success: false, error } *)

Definition exn_message (e : exn) : string :=
  match e with TypeError m => m end.

Definition post_config (body : gmap string jsval) : M http_response :=
  try_catch
    (updatedConfig ← updateStreamConfig body; ret (Json200 updatedConfig))
    (λ error, ret (Json400 (exn_message error))).

Definition post_config_reset : M http_response :=
  try_catch
    (updatedConfig ← updateStreamConfig defaultConfig; ret (Json200 updatedConfig))
    (λ error, ret (Json400 (exn_message error))).

(** ** The process as a transition system *)

Inductive event : Type :=
| EConnect (id : string)
| EDisconnect (id : string)
| EUpdateConfig (id : string) (newConfig : gmap string jsval)
| EPostConfig (body : gmap string jsval)
| EPostReset
| EData (frameData : frame)
| EStreamStart
| EStreamStop
| EStreamError (err : js_error)
| ESocket (id : string) (connected : option bool)
| ETick (dt : Z)
| EFire (i : nat).

(** A terminal error ends the decoder's run before its handler is called. *)
Definition decoder_failed : M unit :=
  modify (λ s, set_stream (fs_set_running false <$> stream s) s).

Definition run_task (t : task) : M unit :=
  match t with
  | TResetCounters =>
      reset_callback ;;
      s ← get;
      modify (set_timers (timers s ++ [(now s + 10000, TResetCounters)]))
  | TRestart => restart_callback
  | TBatch batchIndex clientBatches frameData =>
      processClientBatch batchIndex clientBatches frameData
  | TReady => call (AIoEmit "stream-status" (PStatus "ready"))
  end.

Definition handle (ev : event) : M unit :=
  match ev with
  | EConnect id => on_connection id
  | EDisconnect id => on_disconnect id
  | EUpdateConfig id newConfig => on_update_config id newConfig
  | EPostConfig body => post_config body ;; ret tt
  | EPostReset => post_config_reset ;; ret tt
  | EData frameData => handleNewFrame frameData
  | EStreamStart => on_stream_start
  | EStreamStop => on_stream_stop
  | EStreamError err => decoder_failed ;; on_stream_error err
  | ESocket id connected =>
      modify (λ s, set_sockets (partial_alter (λ _, connected) id (sockets s)) s)
  | ETick dt => modify (λ s, set_now (now s + dt) s)
  | EFire i =>
      s ← get;
      match timers s !! i with
      | Some (_, t) => modify (set_timers (delete i (timers s))) ;; run_task t
      | None => ret tt
      end
  end.

(** Decoder events reach the handlers of the current instance only while
    they are attached; a timer fires no earlier than its deadline; time
    does not run backwards. *)
Definition enabled (ev : event) (s : state) : Prop :=
  match ev with
  | EData _ | EStreamStart | EStreamStop | EStreamError _ =>
      ∃ x, stream s = Some x ∧ fs_listening x = true
  | ETick dt => 0 ≤ dt
  | EFire i => ∃ d t, timers s !! i = Some (d, t) ∧ d ≤ now s
  | _ => True
  end.

(** Module load at time [t0]: the variable initialisers, [setInterval] and
    the startup call [stream = createStream()]. *)
Definition loaded (t0 : Z) : state :=
  mkState defaultConfig None [] 0 0 0 t0 ∅ ∅ t0 [(t0 + 10000, TResetCounters)] 0.

Definition init (t0 : Z) : state :=
  post_state (createStream defaultConfig (loaded t0)).

Definition step (ev : event) (s : state) : state := post_state (handle ev s).

Inductive reachable : state → Prop :=
| reachable_init t0 : reachable (init t0)
| reachable_step s ev : reachable s → enabled ev s → reachable (step ev s).

(** Running a list of events, collecting the external calls. *)
Fixpoint run (evs : list event) (s : state) : state * list action :=
  match evs with
  | [] => (s, [])
  | ev :: rest =>
      let r := handle ev s in
      let '(s', acts) := run rest (post_state r) in
      (s', calls r ++ acts)
  end.

(** Observers used in the statements. *)
Definition queue_length (s : state) (c : string) : nat :=
  length (default [] (frameQueues s !! c)).

(** The frames handed to [socket.volatile.emit('stream', ...)] of [c]. *)
Definition delivered (c : string) (acts : list action) : list frame :=
  omap (λ a, match a with
             | AVolatileEmit c' f => if bool_decide (c' = c) then Some f else None
             | _ => None
             end) acts.

(** The instances on which [start()] / [stop()] were called. *)
Definition start_calls (acts : list action) : list nat :=
  omap (λ a, match a with AStart i => Some i | _ => None end) acts.
Definition stop_calls (acts : list action) : list nat :=
  omap (λ a, match a with AStop i => Some i | _ => None end) acts.

(** [socket.volatile.emit('stream', f)] calls: who was sent what. *)
Definition emits (acts : list action) : list (string * frame) :=
  omap (λ a, match a with AVolatileEmit c f => Some (c, f) | _ => None end) acts.

(** The clients of a batch that [queueFrameForClient] finds connected. *)
Definition connected_of (s : state) (batch : list string) : list string :=
  filter (λ c, sockets s !! c = Some true) batch.

(** The timers set while going from [before] to [after]: [setTimeout]
    appends. *)
Definition new_timers (before after : state) : list (Z * task) :=
  drop (length (timers before)) (timers after).

(** One timer callback run: the deadline it was set for, the clock when it
    ran, the callback and the external calls it made. *)
Record firing : Type := mkFiring {
  fired_deadline : Z;
  fired_at : Z;
  fired_task : task;
  fired_calls : list action
}.

(** Following the timers a callback leaves behind, oldest first, until none
    is left. Between the moment a timer is set and the moment it fires the
    rest of the process runs: [env d s] is the state in which the timer with
    deadline [d], set in state [s], finds the process (its own removal from
    the timer list included). *)
Fixpoint follow_timers (env : Z → state → state) (fuel : nat)
    (pending : list (Z * task)) (s : state) : list firing * list (Z * task) :=
  match fuel, pending with
  | S fuel, (d, t) :: rest =>
      let s1 := env d s in
      let r := run_task t s1 in
      let '(log, remaining) :=
        follow_timers env fuel (rest ++ new_timers s1 (post_state r)) (post_state r) in
      (mkFiring d (now s1) t (calls r) :: log, remaining)
  | _, _ => ([], pending)
  end.

(** Each callback of a chain was set 5 ms after its predecessor ran, and ran
    no earlier than that. *)
Fixpoint staggered (deadline : Z) (log : list firing) : Prop :=
  match log with
  | [] => True
  | e :: rest =>
      fired_deadline e = deadline ∧ deadline ≤ fired_at e
      ∧ staggered (fired_at e + 5) rest
  end.

(** Frames arriving for one client, one call of [queueFrameForClient] each;
    the socket table the call finds is part of the arrival. *)
Fixpoint arrive (c : string) (arrivals : list (gmap string bool * frame))
    (s : state) : state * list action :=
  match arrivals with
  | [] => (s, [])
  | (table, f) :: rest =>
      let r := queueFrameForClient c f (set_sockets table s) in
      let '(s', acts) := arrive c rest (post_state r) in
      (s', calls r ++ acts)
  end.

Fixpoint all_enabled (evs : list event) (s : state) : Prop :=
  match evs with
  | [] => True
  | ev :: rest => enabled ev s ∧ all_enabled rest (step ev s)
  end.


(** Who is sent an error report (a ['stream-error'] or ['error'] payload):
    [None] for a broadcast ([io.emit]), [Some c] for one socket. *)
Definition error_reports (acts : list action) : list (option string) :=
  omap (λ a, match a with
             | AIoEmit _ (PStreamError _ _) | AIoEmit _ (PMessage _) => Some None
             | ASocketEmit c _ (PStreamError _ _)
             | ASocketEmit c _ (PMessage _) => Some (Some c)
             | _ => None
             end) acts.

(** The instances built with [new rtspFFmpeg.FFMpeg(...)]. *)
Definition new_calls (acts : list action) : list nat :=
  omap (λ a, match a with ANew i => Some i | _ => None end) acts.

(** The options an instance was built with. *)
Definition fs_options (x : FFMpeg) : jsval * jsval * jsval * jsval * list jsval :=
  (fs_input x, fs_rate x, fs_resolution x, fs_quality x, fs_arguments x).

(** The timers an event leaves in place: firing removes the one fired. *)
Definition kept_timers (ev : event) (s : state) : list (Z * task) :=
  match ev with
  | EFire i => delete i (timers s)
  | _ => timers s
  end.

(** Validity of the fields of a configuration as the specification's
    interface section lists them: [transport] is "tcp" or "udp", [frameRate]
    an integer in 1..30, [quality] an integer in 1..31, [resolution] and the
    source URI strings, [port] an integer, the decoder options a sequence
    of strings. The code has no such check. *)
Definition spec_valid_field (k : string) (v : jsval) : bool :=
  if String.eqb k "transport" then
    match v with JStr t => String.eqb t "tcp" || String.eqb t "udp" | _ => false end
  else if String.eqb k "frameRate" then
    match v with JNum n => (1 <=? n) && (n <=? 30) | _ => false end
  else if String.eqb k "quality" then
    match v with JNum n => (1 <=? n) && (n <=? 31) | _ => false end
  else if String.eqb k "resolution" || String.eqb k "rtspUrl" then
    match v with JStr _ => true | _ => false end
  else if String.eqb k "port" then
    match v with JNum _ => true | _ => false end
  else if String.eqb k "ffmpegOptions" then
    match v with
    | JArr xs => forallb (λ x, match x with JStr _ => true | _ => false end) xs
    | _ => false
    end
  else true.

Definition spec_valid_update (body : gmap string jsval) : bool :=
  forallb (λ kv, spec_valid_field kv.1 kv.2) (map_to_list body).

(** The update contract as the specification words it: a valid update is
    answered with the resulting configuration, an invalid one with an error,
    the stream left as it was. *)
Definition spec_config_contract : Prop :=
  ∀ (s : state) (body : gmap string jsval),
    reachable s →
    let r := post_config body s in
    if spec_valid_update body
    then outcome r = inr (Json200 (activeConfig (post_state r)))
    else (∃ msg, outcome r = inr (Json400 msg)) ∧ stream (post_state r) = stream s.

(** The lifecycle invariant: outside the recovery window (a restart timer is
    pending), a decoder instance exists and runs iff a client is registered. *)
Definition in_recovery_window (s : state) : Prop :=
  ∃ d, (d, TRestart) ∈ timers s.

Definition source_running (s : state) : Prop :=
  ∃ x, stream s = Some x ∧ fs_running x = true.

Definition lifecycle_invariant (s : state) : Prop :=
  ¬ in_recovery_window s → (source_running s ↔ activeClients s ≠ []).

(** What a successful [createStream(config)] builds, and what is left of the
    instance it replaces. *)
Definition new_instance (config : gmap string jsval) (opts : list jsval) (id : nat)
    : FFMpeg :=
  mkFFMpeg id (js_get config "rtspUrl") (js_get config "frameRate")
    (js_get config "resolution") (js_get config "quality")
    (JStr "-rtsp_transport" :: js_get config "transport" :: opts) false true.

Definition torn_down (x : FFMpeg) : FFMpeg :=
  fs_set_running false (fs_set_listening false x).

Definition started_if_clients (s : state) (x : FFMpeg) : FFMpeg :=
  if bool_decide (activeClients s = []) then x else fs_set_running true x.

(** The frame rate as the specification words it: frames since the last
    reset divided by seconds since the last reset, capped at the target. *)
Definition spec_rate (s : state) (target : Z) : Q :=
  Qmin (inject_Z (frameCount s) / (inject_Z (now s - lastCounterReset s) / 1000))
       (inject_Z target).

Definition spec_reported_rate (div64 : Z → Q → Q) : Prop :=
  ∀ (s : state) (target : Z),
    reachable s →
    js_get (activeConfig s) "frameRate" = JNum target →
    0 < now s - lastCounterReset s →
    ∃ fps, currentFps div64 s = Some fps ∧ (inject_Z fps == spec_rate s target)%Q.

(** Ten frames in the first half second after a reset. *)
Definition burst : state :=
  (run (EConnect "c1" :: replicate 10 (EData [Byte.x01]) ++ [ETick 500]) (init 0)).1.

(** One client, a decoder error, and five seconds gone by. *)
Definition awaiting_restart : state :=
  (run [EConnect "c1"; EStreamError (mkError "timeout" JUndef); ETick 5000]
       (init 0)).1.

(** Twelve clients, all connected. *)
Definition crowd : state :=
  (run (flat_map (λ c, [EConnect c; ESocket c (Some true)])
          ["c01"; "c02"; "c03"; "c04"; "c05"; "c06";
           "c07"; "c08"; "c09"; "c10"; "c11"; "c12"])
       (init 0)).1.

(** The state after one client connected and an update with
    [ffmpegOptions: null] was posted. *)
Definition stalled : state :=
  (run [EConnect "c1"; EPostConfig {["ffmpegOptions" := JNull]}] (init 0)).1.

(** The recovery rule as the specification words it: once the client count
    has dropped to zero before the delay has elapsed, the restart planted
    by that error never runs. *)
Definition spec_restart_cancelled : Prop :=
  ∀ (s : state) (err : js_error) (before after : list event) (i : nat),
    reachable s → enabled (EStreamError err) s → activeClients s ≠ [] →
    let s1 := step (EStreamError err) s in
    all_enabled before s1 →
    let s2 := (run before s1).1 in
    activeClients s2 = [] → now s2 < now s + 5000 →
    all_enabled after s2 →
    let s3 := (run after s2).1 in
    timers s3 !! i = Some (now s + 5000, TRestart) → enabled (EFire i) s3 →
    start_calls (calls (handle (EFire i) s3)) = [].

End Server.

(** * The consumer: [RTSPPlayer]'s frame handler

    The browser side of [socket.on('stream', ...)]. An [ImageBitmap] is an
    object on a heap: [close()] detaches it, and drawing a detached bitmap
    throws. The handler is [async]: it runs up to [await
    createImageBitmap(blob)], and again when the decode settles. *)

Module Player.

(** A decoded picture, as the decoder hands it over. *)
Definition image : Type := nat.

Inductive pixels : Type :=
| Blank                 (* a fresh canvas *)
| Black                 (* after [fillRect] with '#000' *)
| Shows (i : image).    (* after a successful [drawImage] *)

Record bitmap : Type := mkBitmap { picture : image; detached : bool }.

Record player : Type := mkPlayer {
  canvas : pixels;
  offscreenCanvas : pixels;
  canvasWidth : Z;
  canvasHeight : Z;
  frameCount : Z;
  lastValidFrame : option nat;        (* a reference into [bitmaps], or null *)
  processingFrame : bool;
  frameTimeout : option Z;            (* deadline of the 500 ms timer *)
  skippedFrames : Z;
  lastFrameTime : Z;
  streamCheckInterval : bool;
  statusVisible : bool;
  connectionStatus : string;
  bitmaps : gmap nat bitmap;
  exposes_closed : bool;              (* does an ImageBitmap have [.closed]? *)
  rendered : list image;              (* what was drawn on the visible canvas *)
  now : Z
}.

Definition set_canvases (c o : pixels) (p : player) : player :=
  mkPlayer c o (canvasWidth p) (canvasHeight p) (frameCount p) (lastValidFrame p)
    (processingFrame p) (frameTimeout p) (skippedFrames p) (lastFrameTime p)
    (streamCheckInterval p) (statusVisible p) (connectionStatus p) (bitmaps p)
    (exposes_closed p) (rendered p) (now p).
Definition set_size (w h : Z) (p : player) : player :=
  mkPlayer (canvas p) (offscreenCanvas p) w h (frameCount p) (lastValidFrame p)
    (processingFrame p) (frameTimeout p) (skippedFrames p) (lastFrameTime p)
    (streamCheckInterval p) (statusVisible p) (connectionStatus p) (bitmaps p)
    (exposes_closed p) (rendered p) (now p).
Definition set_counters (n : Z) (t : Z) (p : player) : player :=
  mkPlayer (canvas p) (offscreenCanvas p) (canvasWidth p) (canvasHeight p) n
    (lastValidFrame p) (processingFrame p) (frameTimeout p) (skippedFrames p) t
    (streamCheckInterval p) (statusVisible p) (connectionStatus p) (bitmaps p)
    (exposes_closed p) (rendered p) (now p).
Definition set_lastValidFrame (x : option nat) (p : player) : player :=
  mkPlayer (canvas p) (offscreenCanvas p) (canvasWidth p) (canvasHeight p)
    (frameCount p) x (processingFrame p) (frameTimeout p) (skippedFrames p)
    (lastFrameTime p) (streamCheckInterval p) (statusVisible p)
    (connectionStatus p) (bitmaps p) (exposes_closed p) (rendered p) (now p).
Definition set_processing (b : bool) (t : option Z) (p : player) : player :=
  mkPlayer (canvas p) (offscreenCanvas p) (canvasWidth p) (canvasHeight p)
    (frameCount p) (lastValidFrame p) b t (skippedFrames p) (lastFrameTime p)
    (streamCheckInterval p) (statusVisible p) (connectionStatus p) (bitmaps p)
    (exposes_closed p) (rendered p) (now p).
Definition set_skippedFrames (n : Z) (p : player) : player :=
  mkPlayer (canvas p) (offscreenCanvas p) (canvasWidth p) (canvasHeight p)
    (frameCount p) (lastValidFrame p) (processingFrame p) (frameTimeout p) n
    (lastFrameTime p) (streamCheckInterval p) (statusVisible p)
    (connectionStatus p) (bitmaps p) (exposes_closed p) (rendered p) (now p).
Definition set_streamCheckInterval (b : bool) (p : player) : player :=
  mkPlayer (canvas p) (offscreenCanvas p) (canvasWidth p) (canvasHeight p)
    (frameCount p) (lastValidFrame p) (processingFrame p) (frameTimeout p)
    (skippedFrames p) (lastFrameTime p) b (statusVisible p)
    (connectionStatus p) (bitmaps p) (exposes_closed p) (rendered p) (now p).
Definition set_status (visible : bool) (status : string) (p : player) : player :=
  mkPlayer (canvas p) (offscreenCanvas p) (canvasWidth p) (canvasHeight p)
    (frameCount p) (lastValidFrame p) (processingFrame p) (frameTimeout p)
    (skippedFrames p) (lastFrameTime p) (streamCheckInterval p) visible status
    (bitmaps p) (exposes_closed p) (rendered p) (now p).
Definition set_bitmaps (m : gmap nat bitmap) (p : player) : player :=
  mkPlayer (canvas p) (offscreenCanvas p) (canvasWidth p) (canvasHeight p)
    (frameCount p) (lastValidFrame p) (processingFrame p) (frameTimeout p)
    (skippedFrames p) (lastFrameTime p) (streamCheckInterval p) (statusVisible p)
    (connectionStatus p) m (exposes_closed p) (rendered p) (now p).
Definition set_rendered (l : list image) (p : player) : player :=
  mkPlayer (canvas p) (offscreenCanvas p) (canvasWidth p) (canvasHeight p)
    (frameCount p) (lastValidFrame p) (processingFrame p) (frameTimeout p)
    (skippedFrames p) (lastFrameTime p) (streamCheckInterval p) (statusVisible p)
    (connectionStatus p) (bitmaps p) (exposes_closed p) l (now p).
Definition set_now (t : Z) (p : player) : player :=
  mkPlayer (canvas p) (offscreenCanvas p) (canvasWidth p) (canvasHeight p)
    (frameCount p) (lastValidFrame p) (processingFrame p) (frameTimeout p)
    (skippedFrames p) (lastFrameTime p) (streamCheckInterval p) (statusVisible p)
    (connectionStatus p) (bitmaps p) (exposes_closed p) (rendered p) t.

(** The state the constructor leaves. *)
Definition created (has_closed : bool) (t0 : Z) : player :=
  mkPlayer Blank Blank 640 480 0 None false None 0 t0 false true "connecting"
    ∅ has_closed [] t0.

(** [createImageBitmap] resolving with picture [i]: a new, open bitmap. *)
Definition fresh_bitmap (p : player) : nat := fresh (dom (bitmaps p)).

(** [bitmap.close()] *)
Definition close_bitmap (b : nat) (p : player) : player :=
  set_bitmaps (alter (λ x, mkBitmap (picture x) true) b (bitmaps p)) p.

(** What [drawImage(bitmap, ...)] draws; [None] is the [InvalidStateError]
    thrown for a detached (or missing) bitmap. *)
Definition drawable (b : nat) (p : player) : option image :=
  match bitmaps p !! b with
  | Some x => if detached x then None else Some (picture x)
  | None => None
  end.

(** [bitmap.closed], truthy or not: [undefined] where the platform has no
    such property. *)
Definition reads_closed (b : nat) (p : player) : bool :=
  exposes_closed p &&
  match bitmaps p !! b with Some x => detached x | None => false end.

(** The [finally] block. *)
Definition frame_finally (p : player) : player :=
  set_processing false None p.

(** The [catch] block, followed by [finally]. *)
Definition frame_failed (p : player) : player :=
  frame_finally
    match lastValidFrame p with
    | Some b =>
        if negb (reads_closed b p) then
          match drawable b p with
          | Some i =>
              set_rendered (rendered p ++ [i]) (set_canvases (Shows i) (offscreenCanvas p) p)
          | None => set_lastValidFrame None p
          end
        else p
    | None => p
    end.

(** The handler up to the [await]: [true] when a decode was started. *)
Definition on_stream (data : list Byte.byte) (p : player) : player * bool :=
  if processingFrame p then (set_skippedFrames (skippedFrames p + 1) p, false)
  else
    let p := set_processing true (Some (now p + 500)) p in
    if bool_decide (length data < 100)%nat
    then (frame_failed p, false)       (* 'Invalid frame data: too small' *)
    else (p, true).

(** The handler after the [await]: the decode failed ([None]) or produced a
    picture. *)
Definition on_decoded (result : option image) (p : player) : player :=
  match result with
  | None => frame_failed p             (* 'Failed to decode image: ...' *)
  | Some i =>
      let b := fresh_bitmap p in
      let p := set_bitmaps (<[b := mkBitmap i false]> (bitmaps p)) p in
      (* draw to the offscreen canvas, then copy to the visible one *)
      let p := set_canvases (Shows i) (Shows i) p in
      let p := set_rendered (rendered p ++ [i]) p in
      let p := set_lastValidFrame (Some b) p in
      let p := close_bitmap b p in
      let p := set_counters (frameCount p + 1) (now p) p in
      let p :=
        if streamCheckInterval p && (1 <? frameCount p)
        then set_streamCheckInterval false p else p in
      (* hideStatus(); handleSuccessfulConnection() *)
      let p := set_status false "connected" p in
      frame_finally p
  end.

(** The 500 ms timer of the handler. *)
Definition on_frame_timeout (p : player) : player :=
  set_processing false (frameTimeout p) p.

(** [updateCanvasSize(width, height)] *)
Definition updateCanvasSize (width height : Z) (p : player) : player :=
  if (width =? 0) || (height =? 0) then p
  else
    let p := set_size width height p in
    let p := set_canvases Black Black p in
    match lastValidFrame p with
    | Some b =>
        if negb (reads_closed b p)
        then set_lastValidFrame None (close_bitmap b p)
        else p
    | None => p
    end.

Inductive event : Type :=
| EStream (data : list Byte.byte)
| EDecoded (result : option image)
| EFrameTimeout
| EResize (width height : Z)
| ETick (dt : Z).

Definition step (ev : event) (p : player) : player :=
  match ev with
  | EStream data => (on_stream data p).1
  | EDecoded result => on_decoded result p
  | EFrameTimeout => on_frame_timeout p
  | EResize width height => updateCanvasSize width height p
  | ETick dt => set_now (now p + dt) p
  end.

Inductive reachable : player → Prop :=
| reachable_created has_closed t0 : reachable (created has_closed t0)
| reachable_step p ev : reachable p → reachable (step ev p).

(** A good frame, then a unit too small to be one. *)
Definition good_frame : list Byte.byte := replicate 100 Byte.xff.
Definition runt : list Byte.byte := [Byte.xff; Byte.xd8].

Definition after_good (has_closed : bool) : player :=
  step (EDecoded (Some 7%nat)) (step (EStream good_frame) (created has_closed 0)).

End Player.

(** * Verification *)

Module ServerProofs.
Import Server.

Ltac munfold :=
  unfold mbind, M_bind, mret, M_ret, bind, ret, get, modify, call, throw,
         try_catch, post_state, calls, outcome in *.

(** ** State predicates kept by every monadic building block *)

Section Preserve.
Context (P : state → Prop).

Definition preserves {A} (m : M A) : Prop :=
  ∀ s, P s → P (post_state (m s)).

Lemma preserves_ret {A} (x : A) : preserves (ret x).
Proof. intros s Hs. exact Hs. Qed.

Lemma preserves_get : preserves get.
Proof. intros s Hs. exact Hs. Qed.

Lemma preserves_call a : preserves (call a).
Proof. intros s Hs. exact Hs. Qed.

Lemma preserves_throw {A} e : preserves (@throw A e).
Proof. intros s Hs. exact Hs. Qed.

Lemma preserves_modify f : (∀ s, P s → P (f s)) → preserves (modify f).
Proof. intros Hf s Hs. apply Hf, Hs. Qed.

Lemma preserves_bind {A B} (m : M A) (f : A → M B) :
  preserves m → (∀ x, preserves (f x)) → preserves (m ≫= f).
Proof.
  intros Hm Hf s Hs. specialize (Hm s Hs).
  unfold mbind, M_bind, bind, post_state in *.
  destruct (m s) as [[[e|x] s1] a1]; simpl in *; [exact Hm|].
  specialize (Hf x s1 Hm). unfold post_state in Hf.
  destruct (f x s1) as [[r s2] a2]; exact Hf.
Qed.

Lemma preserves_try_catch {A} (m : M A) (h : exn → M A) :
  preserves m → (∀ e, preserves (h e)) → preserves (try_catch m h).
Proof.
  intros Hm Hh s Hs. specialize (Hm s Hs).
  unfold try_catch, post_state in *.
  destruct (m s) as [[[e|x] s1] a1]; simpl in *; [|exact Hm].
  specialize (Hh e s1 Hm). unfold post_state in Hh.
  destruct (h e s1) as [[r s2] a2]; exact Hh.
Qed.

Lemma preserves_for_of {A} (xs : list A) (body : A → M unit) :
  (∀ x, preserves (body x)) → preserves (for_of xs body).
Proof.
  intros Hb. induction xs as [|x xs IH]; simpl.
  - apply preserves_ret.
  - apply preserves_bind; [apply Hb | intros _; exact IH].
Qed.
End Preserve.

(** Takes a handler apart along its control flow; what is left are the
    state updates, one goal each. *)
Ltac preserve_step :=
  lazymatch goal with
  | |- preserves _ (_ ≫= _) => apply preserves_bind; [|intros ?]
  | |- preserves _ (ret _) => apply preserves_ret
  | |- preserves _ (mret _) => apply preserves_ret
  | |- preserves _ get => apply preserves_get
  | |- preserves _ (call _) => apply preserves_call
  | |- preserves _ (throw _) => apply preserves_throw
  | |- preserves _ (try_catch _ _) => apply preserves_try_catch; [|intros ?]
  | |- preserves _ (for_of _ _) => apply preserves_for_of; intros ?
  | |- preserves _ (modify _) => apply preserves_modify; intros ? ?
  | |- preserves _ (if ?b then _ else _) => destruct b
  | |- preserves _ (match ?x with _ => _ end) => destruct x
  end.

Ltac preserve_with unf := repeat (first [preserve_step | progress unf]).

Ltac unfold_server :=
  unfold handle, on_connection, on_disconnect, on_update_config, post_config,
    post_config_reset, updateStreamConfig, startStreamIfNeeded,
    stopStreamIfNoClients, createStream, handleNewFrame, processClientBatch,
    queueFrameForClient, on_stream_start, on_stream_stop, on_stream_error,
    decoder_failed, run_task, restart_callback, reset_callback, setTimeout,
    stream_start, stream_stop, stream_removeAllListeners, stream_method.

(** ** The per-client queue *)

Lemma trimmed_last (q : list frame) (f : frame) :
  let queue := q ++ [f] in
  let trimmed :=
    if bool_decide (MAX_QUEUE_SIZE < length queue)%nat
    then drop (length queue - MAX_QUEUE_SIZE)%nat queue else queue in
  last trimmed = Some f ∧ (0 < length trimmed)%nat.
Proof.
  intros queue trimmed. subst trimmed queue. unfold MAX_QUEUE_SIZE.
  case_bool_decide as Hlen.
  - rewrite length_app in *. simpl in *.
    rewrite drop_app_le by lia. rewrite last_snoc, length_app. simpl.
    split; [done|lia].
  - rewrite last_snoc, length_app. simpl. split; [done|lia].
Qed.

(** A connected client: whatever the queue held, the frame just pushed is
    the one sent, and the queue is left empty. *)
Lemma queueFrameForClient_connected s c f :
  sockets s !! c = Some true →
  queueFrameForClient c f s =
    (inr tt, set_frameQueues (<[c := []]> (frameQueues s)) s, [AVolatileEmit c f]).
Proof.
  intros Hc. unfold queueFrameForClient. munfold. rewrite Hc.
  destruct (trimmed_last (default [] (frameQueues s !! c)) f) as [Hl Hn].
  cbv zeta in *.
  rewrite bool_decide_true by exact Hn.
  unfold js_pop. rewrite Hl. reflexivity.
Qed.

(** No socket, or a socket that is not connected: nothing happens. *)
Lemma queueFrameForClient_skipped s c f :
  sockets s !! c ≠ Some true →
  queueFrameForClient c f s = (inr tt, s, []).
Proof.
  intros Hc. unfold queueFrameForClient. munfold.
  destruct (sockets s !! c) as [[]|]; try reflexivity; congruence.
Qed.

Definition queues_empty (s : state) : Prop :=
  ∀ c q, frameQueues s !! c = Some q → q = [].

Lemma queues_empty_insert c m s :
  queues_empty s → frameQueues s = m →
  ∀ c' q, <[c := []]> m !! c' = Some q → q = [].
Proof.
  intros Hs <- c' q. rewrite lookup_insert. case_decide; [congruence|apply Hs].
Qed.

Lemma queueFrameForClient_queues_empty c f :
  preserves queues_empty (queueFrameForClient c f).
Proof.
  intros s Hs. destruct (decide (sockets s !! c = Some true)) as [Hc|Hc].
  - rewrite queueFrameForClient_connected by done. unfold post_state; simpl.
    intros c' q. simpl. by apply (queues_empty_insert c _ s).
  - by rewrite queueFrameForClient_skipped.
Qed.

Lemma handle_queues_empty ev : preserves queues_empty (handle ev).
Proof.
  destruct ev; unfold handle;
    preserve_with ltac:(unfold on_connection, on_disconnect, on_update_config,
      post_config, post_config_reset, updateStreamConfig, startStreamIfNeeded,
      stopStreamIfNoClients, createStream, handleNewFrame, processClientBatch,
      on_stream_start, on_stream_stop, on_stream_error,
      decoder_failed, run_task, restart_callback, reset_callback, setTimeout,
      stream_start, stream_stop, stream_removeAllListeners, stream_method);
    try apply queueFrameForClient_queues_empty;
    try assumption.
  all: intros c q; simpl; rewrite lookup_delete; case_decide; [done|].
  all: match goal with H : queues_empty _ |- _ => apply H end.
Qed.

Lemma init_eq t0 :
  init t0 =
    mkState defaultConfig
      (Some (mkFFMpeg 0 (JStr "rtsp://your-rtsp-url") (JNum 15) (JStr "640x360")
               (JNum 3)
               [JStr "-rtsp_transport"; JStr "udp"; JStr "-fflags"; JStr "nobuffer";
                JStr "-flags"; JStr "low_delay"] false true))
      [] 0 0 0 t0 ∅ ∅ t0 [(t0 + 10000, TResetCounters)] 1.
Proof. reflexivity. Qed.

Lemma reachable_queues_empty s : reachable s → queues_empty s.
Proof.
  induction 1 as [t0|s ev Hr IH He].
  - rewrite init_eq. intros c q. simpl. by rewrite lookup_empty.
  - by apply handle_queues_empty.
Qed.

Lemma queues_empty_length s c : queues_empty s → (queue_length s c ≤ 1)%nat.
Proof.
  intros Hs. unfold queue_length.
  destruct (frameQueues s !! c) as [q|] eqn:Hq; simpl; [|lia].
  rewrite (Hs c q Hq). simpl. lia.
Qed.

(** C1. Queue bound: in every state the process can reach, and after every
    further broadcast call ([handleNewFrame]) or single arrival
    ([queueFrameForClient]), each client's queue holds at most one frame;
    and whatever a connected client's queue held (in any state at all), the
    arriving frame takes its place: it is the one sent, and the queue is
    left empty. *)
Theorem queue_holds_at_most_one (s : state) (c : string) (f : frame) :
  reachable s →
  (queue_length s c ≤ 1)%nat
  ∧ (queue_length (post_state (handleNewFrame f s)) c ≤ 1)%nat
  ∧ (queue_length (post_state (queueFrameForClient c f s)) c ≤ 1)%nat
  ∧ (∀ s' : state, sockets s' !! c = Some true →
       calls (queueFrameForClient c f s') = [AVolatileEmit c f]
       ∧ frameQueues (post_state (queueFrameForClient c f s')) !! c = Some []).
Proof.
  intros Hr. pose proof (reachable_queues_empty s Hr) as Hq.
  repeat split.
  - by apply queues_empty_length.
  - apply queues_empty_length. by apply (handle_queues_empty (EData f)).
  - apply queues_empty_length. by apply queueFrameForClient_queues_empty.
  - by rewrite queueFrameForClient_connected.
  - rewrite queueFrameForClient_connected by done.
    unfold post_state; simpl. apply lookup_insert_eq.
Qed.

Lemma queue_holds_at_most_one_witness :
  let s := step (EConnect "c1") (step (ESocket "c1" (Some true)) (init 0)) in
  (queue_length (post_state (handleNewFrame [Byte.x01] s)) "c1" ≤ 1)%nat.
Proof.
  intros s.
  refine (proj1 (proj2 (queue_holds_at_most_one s "c1" [Byte.x01] _))).
  subst s. apply reachable_step; [apply reachable_step; [apply reachable_init|]|];
    exact I.
Defined.

(** ** Newest wins *)

Lemma delivered_app c a1 a2 : delivered c (a1 ++ a2) = delivered c a1 ++ delivered c a2.
Proof. unfold delivered. apply omap_app. Qed.

Lemma queueFrameForClient_delivered c f s :
  delivered c (calls (queueFrameForClient c f s)) = [] ∨
  delivered c (calls (queueFrameForClient c f s)) = [f].
Proof.
  destruct (decide (sockets s !! c = Some true)) as [Hc|Hc].
  - right. rewrite queueFrameForClient_connected by done.
    unfold calls, delivered; simpl. by rewrite bool_decide_true.
  - left. by rewrite queueFrameForClient_skipped.
Qed.

(** Whatever is sent to a client during a series of arrivals is one of the
    arriving frames, in arrival order: nothing older comes out of a queue. *)
Lemma arrive_delivered c arrivals s :
  sublist (delivered c (arrive c arrivals s).2) (arrivals.*2).
Proof.
  revert s. induction arrivals as [|[table f] rest IH]; intros s; simpl.
  - constructor.
  - specialize (IH (post_state (queueFrameForClient c f (set_sockets table s)))).
    destruct (arrive c rest _) as [s' acts]. simpl in *.
    rewrite delivered_app.
    destruct (queueFrameForClient_delivered c f (set_sockets table s)) as [-> | ->];
      simpl.
    + by apply sublist_cons.
    + by apply sublist_skip.
Qed.

(** C2. Newest wins: when F1 arrives and is not sent on arrival, and F2
    arrives after it, then of the two only F2 can be what the client is
    sent, now or after any later arrivals: all that is ever sent is drawn,
    in order, from F2 and the later frames. And a send always takes the
    frame just pushed and drops everything older the queue held. *)
Theorem newest_frame_wins (s : state) (c : string) (F1 F2 : frame)
    (t1 t2 : gmap string bool) (later : list (gmap string bool * frame)) :
  delivered c (calls (queueFrameForClient c F1 (set_sockets t1 s))) = [] →
  sublist (delivered c (arrive c ((t1, F1) :: (t2, F2) :: later) s).2)
          (F2 :: later.*2)
  ∧ (delivered c (arrive c [(t1, F1); (t2, F2)] s).2 = []
     ∨ delivered c (arrive c [(t1, F1); (t2, F2)] s).2 = [F2])
  ∧ (∀ (s' : state) (older : list frame),
       frameQueues s' !! c = Some older → sockets s' !! c = Some true →
       delivered c (calls (queueFrameForClient c F2 s')) = [F2]
       ∧ queue_length (post_state (queueFrameForClient c F2 s')) c = 0%nat).
Proof.
  intros Hnot. split; [|split].
  - pose proof (arrive_delivered c ((t2, F2) :: later)
                  (post_state (queueFrameForClient c F1 (set_sockets t1 s)))) as H.
    change (arrive c ((t1, F1) :: (t2, F2) :: later) s) with
      (let r := queueFrameForClient c F1 (set_sockets t1 s) in
       let '(s', acts) := arrive c ((t2, F2) :: later) (post_state r) in
       (s', calls r ++ acts)).
    cbv zeta.
    destruct (arrive c ((t2, F2) :: later) _) as [s' acts]. simpl in *.
    by rewrite delivered_app, Hnot.
  - simpl. rewrite !delivered_app, Hnot. simpl.
    rewrite app_nil_r. apply queueFrameForClient_delivered.
  - intros s' older _ Hc. rewrite queueFrameForClient_connected by done.
    unfold calls, delivered, post_state, queue_length; simpl.
    rewrite bool_decide_true by done. by rewrite lookup_insert_eq.
Qed.

Lemma newest_frame_wins_witness :
  delivered "c1"
    (arrive "c1" [({["c1" := false]}, [Byte.x01]); ({["c1" := true]}, [Byte.x02])]
       (init 0)).2 = []
  ∨ delivered "c1"
    (arrive "c1" [({["c1" := false]}, [Byte.x01]); ({["c1" := true]}, [Byte.x02])]
       (init 0)).2 = [[Byte.x02]].
Proof.
  refine (proj1 (proj2 (newest_frame_wins (init 0) "c1" [Byte.x01] [Byte.x02]
            {["c1" := false]} {["c1" := true]} [] _))).
  vm_compute. reflexivity.
Defined.

(** ** Lifecycle *)

Definition stream_exists (s : state) : Prop := is_Some (stream s).

Lemma handle_stream_exists ev : preserves stream_exists (handle ev).
Proof.
  destruct ev; unfold handle;
    preserve_with ltac:(unfold on_connection, on_disconnect, on_update_config,
      post_config, post_config_reset, updateStreamConfig, startStreamIfNeeded,
      stopStreamIfNoClients, createStream, handleNewFrame, processClientBatch,
      queueFrameForClient, on_stream_start, on_stream_stop, on_stream_error,
      decoder_failed, run_task, restart_callback, reset_callback, setTimeout,
      stream_start, stream_stop, stream_removeAllListeners, stream_method);
    unfold stream_exists in *; simpl; try done.
  by apply fmap_is_Some.
Qed.

Lemma reachable_stream_exists s : reachable s → is_Some (stream s).
Proof.
  induction 1 as [t0|s ev Hr IH He].
  - rewrite init_eq. simpl. eauto.
  - by apply handle_stream_exists.
Qed.

Lemma startStreamIfNeeded_some s x :
  stream s = Some x → activeClients s ≠ [] →
  startStreamIfNeeded s =
    (inr tt, set_stream (Some (fs_set_running true x)) s, [AStart (fs_id x)]).
Proof.
  intros Hx Hc. unfold startStreamIfNeeded, stream_start, stream_method. munfold.
  rewrite bool_decide_true by (destruct (activeClients s); simpl; [done|lia]).
  rewrite Hx. simpl. rewrite Hx. reflexivity.
Qed.

Lemma startStreamIfNeeded_no_clients s :
  activeClients s = [] → startStreamIfNeeded s = (inr tt, s, []).
Proof.
  intros Hc. unfold startStreamIfNeeded. munfold. rewrite Hc. reflexivity.
Qed.

Lemma stopStreamIfNoClients_last s x :
  stream s = Some x → activeClients s = [] →
  stopStreamIfNoClients s =
    (inr tt, set_stream (Some (fs_set_running false x)) s, [AStop (fs_id x)]).
Proof.
  intros Hx Hc. unfold stopStreamIfNoClients, stream_stop, stream_method. munfold.
  rewrite Hc, Hx. simpl. rewrite Hx. reflexivity.
Qed.

Lemma stopStreamIfNoClients_others s :
  activeClients s ≠ [] → stopStreamIfNoClients s = (inr tt, s, []).
Proof.
  intros Hc. unfold stopStreamIfNoClients. munfold.
  rewrite bool_decide_false; [reflexivity|].
  destruct (activeClients s); simpl; [done|lia].
Qed.

Lemma set_add_other id other l :
  other ∈ l → other ≠ id → (2 ≤ length (set_add id l))%nat.
Proof.
  intros Ho Hne. unfold set_add. case_bool_decide as Hid.
  - destruct l as [|a [|b l]]; simpl; try lia.
    + by apply elem_of_nil in Ho.
    + apply list_elem_of_singleton in Ho, Hid. congruence.
  - rewrite length_app. simpl. destruct l; simpl; [by apply elem_of_nil in Ho|lia].
Qed.

Lemma set_delete_other id other l :
  other ∈ l → other ≠ id → set_delete id l ≠ [].
Proof.
  intros Ho Hne Hnil. unfold set_delete in Hnil.
  assert (other ∈ filter (λ y, y ≠ id) l) as Hin by (apply list_elem_of_filter; done).
  rewrite Hnil in Hin. by apply elem_of_nil in Hin.
Qed.

Lemma on_connection_calls s id :
  calls (on_connection id s) =
    ASocketEmit id "config" (PConfig (activeConfig s)) ::
    calls (if bool_decide (length (set_add id (activeClients s)) = 1%nat)
           then startStreamIfNeeded
                  (set_activeClients (set_add id (activeClients s)) s)
           else (inr tt, s, [])).
Proof.
  unfold on_connection. munfold. simpl.
  case_bool_decide; simpl.
  - destruct (startStreamIfNeeded _) as [[r s'] a]. reflexivity.
  - reflexivity.
Qed.

Lemma on_disconnect_calls s id :
  calls (on_disconnect id s) =
    calls (stopStreamIfNoClients
             (set_frameQueues (delete id (frameQueues s))
                (set_activeClients (set_delete id (activeClients s)) s))).
Proof.
  unfold on_disconnect. munfold. simpl.
  destruct (stopStreamIfNoClients _) as [[r s'] a]. reflexivity.
Qed.

(** C3. Lifecycle symmetry, in every state the process can reach (where a
    decoder instance [x] always exists): the connection handler of the
    first client calls [start] once, on [x], and never [stop]; the
    disconnect handler of the last client calls [stop] once, on [x], and
    never [start]; while another client stays registered, neither handler
    calls [start] or [stop]. *)
Theorem lifecycle_symmetry (s : state) (id : string) :
  reachable s →
  ∃ x, stream s = Some x
  ∧ (activeClients s = [] →
       start_calls (calls (on_connection id s)) = [fs_id x]
       ∧ stop_calls (calls (on_connection id s)) = [])
  ∧ (activeClients s = [id] →
       stop_calls (calls (on_disconnect id s)) = [fs_id x]
       ∧ start_calls (calls (on_disconnect id s)) = [])
  ∧ (∀ other, other ∈ activeClients s → other ≠ id →
       start_calls (calls (on_connection id s)) = []
       ∧ stop_calls (calls (on_connection id s)) = []
       ∧ start_calls (calls (on_disconnect id s)) = []
       ∧ stop_calls (calls (on_disconnect id s)) = []).
Proof.
  intros Hr. destruct (reachable_stream_exists s Hr) as [x Hx].
  exists x. split; [done|]. split; [|split].
  - intros Hc. rewrite on_connection_calls, Hc. simpl.
    erewrite startStreamIfNeeded_some; [|simpl; exact Hx|simpl; done].
    by split.
  - intros Hc. rewrite on_disconnect_calls, Hc.
    erewrite stopStreamIfNoClients_last; [by split|simpl; exact Hx|].
    simpl. unfold set_delete. rewrite filter_cons_False by (intros H; by apply H).
    done.
  - intros other Ho Hne.
    rewrite on_connection_calls, on_disconnect_calls.
    pose proof (set_add_other id other _ Ho Hne).
    rewrite bool_decide_false by lia.
    rewrite stopStreamIfNoClients_others by (simpl; by eapply set_delete_other).
    done.
Qed.

Lemma lifecycle_symmetry_witness :
  start_calls (calls (on_connection "c1" (init 0))) = [0%nat].
Proof.
  destruct (lifecycle_symmetry (init 0) "c1" (reachable_init 0))
    as (x & Hx & Hfirst & _).
  rewrite init_eq in Hx. simpl in Hx. injection Hx as <-.
  exact (proj1 (Hfirst eq_refl)).
Defined.

(** ** Recovery after a decoder error *)

Lemma on_stream_error_clients s err :
  activeClients s ≠ [] →
  on_stream_error err s =
    (inr tt, set_timers (timers s ++ [(now s + 5000, TRestart)]) s,
     [AIoEmit "stream-error"
        (PStreamError (classify err) (js_or (code err) (JStr "STREAM_ERROR")));
      ASetTimeout 5000 TRestart]).
Proof.
  intros Hc. unfold on_stream_error, setTimeout. munfold.
  rewrite bool_decide_true by (destruct (activeClients s); simpl; [done|lia]).
  reflexivity.
Qed.

Lemma on_stream_error_no_clients s err :
  activeClients s = [] →
  on_stream_error err s =
    (inr tt, s,
     [AIoEmit "stream-error"
        (PStreamError (classify err) (js_or (code err) (JStr "STREAM_ERROR")))]).
Proof.
  intros Hc. unfold on_stream_error, setTimeout. munfold. rewrite Hc. reflexivity.
Qed.

Lemma restart_callback_clients s x :
  stream s = Some x → activeClients s ≠ [] →
  restart_callback s =
    (inr tt, set_stream (Some (fs_set_running true x)) s, [AStart (fs_id x)]).
Proof.
  intros Hx Hc. unfold restart_callback.
  unfold mbind, M_bind, bind at 1. unfold get at 1.
  rewrite bool_decide_true by (destruct (activeClients s); simpl; [done|lia]).
  unfold try_catch. by rewrite (startStreamIfNeeded_some s x).
Qed.

Lemma restart_callback_no_clients s :
  activeClients s = [] → restart_callback s = (inr tt, s, []).
Proof.
  intros Hc. unfold restart_callback. munfold. rewrite Hc. reflexivity.
Qed.

Lemma fire_eq s i d t :
  timers s !! i = Some (d, t) →
  handle (EFire i) s = run_task t (set_timers (delete i (timers s)) s).
Proof.
  intros Hi. unfold handle. munfold. rewrite Hi. simpl.
  destruct (run_task t _) as [[r s'] a]. reflexivity.
Qed.

Definition enabledb (ev : event) (s : state) : bool :=
  match ev with
  | EData _ | EStreamStart | EStreamStop | EStreamError _ =>
      match stream s with Some x => fs_listening x | None => false end
  | ETick dt => 0 <=? dt
  | EFire i =>
      match timers s !! i with Some (d, _) => d <=? now s | None => false end
  | _ => true
  end.

Fixpoint all_enabledb (evs : list event) (s : state) : bool :=
  match evs with
  | [] => true
  | ev :: rest => enabledb ev s && all_enabledb rest (step ev s)
  end.

Lemma enabledb_enabled ev s : enabledb ev s = true → enabled ev s.
Proof.
  destruct ev; simpl; try done.
  - destruct (stream s) as [x|]; [eauto|done].
  - destruct (stream s) as [x|]; [eauto|done].
  - destruct (stream s) as [x|]; [eauto|done].
  - destruct (stream s) as [x|]; [eauto|done].
  - intros H. by apply Z.leb_le.
  - destruct (timers s !! i) as [[d t]|]; [|done].
    intros H. exists d, t. split; [done|]. by apply Z.leb_le.
Qed.

Lemma all_enabledb_enabled evs s : all_enabledb evs s = true → all_enabled evs s.
Proof.
  revert s. induction evs as [|ev evs IH]; intros s; simpl; [done|].
  intros [H1 H2]%andb_true_iff. split; [by apply enabledb_enabled|by apply IH].
Qed.

Lemma run_reachable evs s :
  reachable s → all_enabled evs s → reachable (run evs s).1.
Proof.
  revert s. induction evs as [|ev evs IH]; intros s Hr He; simpl in *; [done|].
  destruct He as [He Hrest].
  specialize (IH (step ev s) (reachable_step _ _ Hr He) Hrest).
  unfold step in IH. destruct (run evs _) as [s' acts]. exact IH.
Qed.

(** C5 as stated fails: the only client leaves one second after the error,
    another joins a second later, and at the deadline the restart runs. *)
Lemma recovery_not_cancelled : ¬ spec_restart_cancelled.
Proof.
  intros H.
  specialize (H (step (EConnect "c1") (init 0)) (mkError "timeout" JUndef)
                [ETick 1000; EDisconnect "c1"]
                [ETick 1000; EConnect "c2"; ETick 3000] 1%nat).
  assert (start_calls [AStart 0] = []) as Hbad; [|discriminate Hbad].
  apply H.
  - apply reachable_step; [apply reachable_init|exact I].
  - eexists. split; reflexivity.
  - vm_compute. discriminate.
  - vm_compute. repeat split; discriminate.
  - reflexivity.
  - reflexivity.
  - vm_compute. repeat split; discriminate.
  - reflexivity.
  - exists 5000, TRestart. split; [reflexivity|]. vm_compute. discriminate.
Qed.

(** ** Configuration updates *)

Lemma createStream_ok config s x opts :
  stream s = Some x →
  js_iterate (js_get config "ffmpegOptions") = Some opts →
  createStream config s =
    (inr (new_instance config opts (next_id s)),
     set_next_id (S (next_id s))
       (set_stream (Some (new_instance config opts (next_id s))) s),
     [ARemoveAllListeners (fs_id x); AStop (fs_id x); ANew (next_id s)]).
Proof.
  intros Hx Ho. unfold createStream, stream_removeAllListeners, stream_stop,
    stream_method. munfold. rewrite Hx, Ho. simpl. rewrite Hx. reflexivity.
Qed.

Lemma createStream_throws config s x :
  stream s = Some x →
  js_iterate (js_get config "ffmpegOptions") = None →
  createStream config s =
    (inl (TypeError "config.ffmpegOptions is not iterable"),
     set_stream (Some (torn_down x)) s,
     [ARemoveAllListeners (fs_id x); AStop (fs_id x)]).
Proof.
  intros Hx Ho. unfold createStream, stream_removeAllListeners, stream_stop,
    stream_method. munfold. rewrite Hx, Ho. simpl. rewrite Hx. reflexivity.
Qed.

Lemma startStreamIfNeeded_cases s x :
  stream s = Some x →
  startStreamIfNeeded s =
    if bool_decide (activeClients s = [])
    then (inr tt, s, [])
    else (inr tt, set_stream (Some (fs_set_running true x)) s, [AStart (fs_id x)]).
Proof.
  intros Hx. case_bool_decide as Hc.
  - by apply startStreamIfNeeded_no_clients.
  - by apply startStreamIfNeeded_some.
Qed.

Lemma updateStreamConfig_ok newConfig s x opts :
  stream s = Some x →
  let merged := js_spread (activeConfig s) newConfig in
  js_iterate (js_get merged "ffmpegOptions") = Some opts →
  updateStreamConfig newConfig s =
    (inr merged,
     set_next_id (S (next_id s))
       (set_stream (Some (started_if_clients s (new_instance merged opts (next_id s))))
          (set_activeConfig merged s)),
     [ARemoveAllListeners (fs_id x); AStop (fs_id x); ANew (next_id s)] ++
     (if bool_decide (activeClients s = []) then [] else [AStart (next_id s)])).
Proof.
  intros Hx merged Ho. unfold updateStreamConfig.
  unfold mbind, M_bind, bind, modify, get. 
  rewrite (createStream_ok _ _ x opts) by done.
  simpl activeConfig. fold merged.
  erewrite startStreamIfNeeded_cases by reflexivity.
  unfold started_if_clients. simpl activeClients.
  case_bool_decide; reflexivity.
Qed.

Lemma updateStreamConfig_throws newConfig s x :
  stream s = Some x →
  let merged := js_spread (activeConfig s) newConfig in
  js_iterate (js_get merged "ffmpegOptions") = None →
  updateStreamConfig newConfig s =
    (inl (TypeError "config.ffmpegOptions is not iterable"),
     set_stream (Some (torn_down x)) (set_activeConfig merged s),
     [ARemoveAllListeners (fs_id x); AStop (fs_id x)]).
Proof.
  intros Hx merged Ho. unfold updateStreamConfig.
  unfold mbind, M_bind, bind, modify, get. 
  rewrite (createStream_throws _ _ x) by done.
  reflexivity.
Qed.

Lemma post_config_ok body s x opts :
  stream s = Some x →
  let merged := js_spread (activeConfig s) body in
  js_iterate (js_get merged "ffmpegOptions") = Some opts →
  post_config body s =
    (inr (Json200 merged),
     set_next_id (S (next_id s))
       (set_stream (Some (started_if_clients s (new_instance merged opts (next_id s))))
          (set_activeConfig merged s)),
     [ARemoveAllListeners (fs_id x); AStop (fs_id x); ANew (next_id s)] ++
     (if bool_decide (activeClients s = []) then [] else [AStart (next_id s)])).
Proof.
  intros Hx merged Ho. unfold post_config, try_catch, mbind, M_bind, bind.
  rewrite (updateStreamConfig_ok body s x opts Hx Ho). fold merged. simpl.
  by rewrite app_nil_r.
Qed.

Lemma post_config_throws body s x :
  stream s = Some x →
  let merged := js_spread (activeConfig s) body in
  js_iterate (js_get merged "ffmpegOptions") = None →
  post_config body s =
    (inr (Json400 "config.ffmpegOptions is not iterable"),
     set_stream (Some (torn_down x)) (set_activeConfig merged s),
     [ARemoveAllListeners (fs_id x); AStop (fs_id x)]).
Proof.
  intros Hx merged Ho. unfold post_config, try_catch, mbind, M_bind, bind.
  rewrite (updateStreamConfig_throws body s x Hx Ho). reflexivity.
Qed.

Lemma on_update_config_ok id body s x opts :
  stream s = Some x →
  let merged := js_spread (activeConfig s) body in
  js_iterate (js_get merged "ffmpegOptions") = Some opts →
  calls (on_update_config id body s) =
    [ARemoveAllListeners (fs_id x); AStop (fs_id x); ANew (next_id s)] ++
    (if bool_decide (activeClients s = []) then [] else [AStart (next_id s)]) ++
    [AIoEmit "config" (PConfig merged);
     AIoEmit "stream-status" (PStatus "restarting");
     ASetTimeout 1000 TReady].
Proof.
  intros Hx merged Ho.
  unfold on_update_config, try_catch, setTimeout, mbind, M_bind, bind.
  rewrite (updateStreamConfig_ok body s x opts Hx Ho). fold merged. simpl.
  case_bool_decide; reflexivity.
Qed.

Lemma on_update_config_throws id body s x :
  stream s = Some x →
  let merged := js_spread (activeConfig s) body in
  js_iterate (js_get merged "ffmpegOptions") = None →
  on_update_config id body s =
    (inr tt, set_stream (Some (torn_down x)) (set_activeConfig merged s),
     [ARemoveAllListeners (fs_id x); AStop (fs_id x);
      ASocketEmit id "error" (PMessage "Failed to update stream configuration")]).
Proof.
  intros Hx merged Ho. unfold on_update_config, try_catch, mbind, M_bind, bind.
  rewrite (updateStreamConfig_throws body s x Hx Ho). reflexivity.
Qed.

(** C7 as stated fails: nothing is validated. [quality: 99] is outside
    1..31, and the update is answered with success. *)
Lemma invalid_config_accepted : ¬ spec_config_contract.
Proof.
  intros H. specialize (H (init 0) {["quality" := JNum 99]} (reachable_init 0)).
  change (spec_valid_update {["quality" := JNum 99]}) with false in H.
  destruct H as [[msg Hmsg] _].
  vm_compute in Hmsg. discriminate Hmsg.
Qed.

(** ** The configuration merge *)

(** C10. [updateStreamConfig] in any reachable state: a field absent from
    the update keeps its value, a field present in it (known to the schema
    or not) is stored as given, and whatever the call returns is the stored
    active configuration; it does return when the merged [ffmpegOptions]
    can be spread. *)
Theorem update_merges_config (s : state) (newConfig : gmap string jsval) :
  reachable s →
  let r := updateStreamConfig newConfig s in
  (∀ k, newConfig !! k = None → activeConfig (post_state r) !! k = activeConfig s !! k)
  ∧ (∀ k v, newConfig !! k = Some v → activeConfig (post_state r) !! k = Some v)
  ∧ (∀ c, outcome r = inr c → c = activeConfig (post_state r))
  ∧ (is_Some (js_iterate (js_get (js_spread (activeConfig s) newConfig) "ffmpegOptions")) →
       outcome r = inr (activeConfig (post_state r))).
Proof.
  intros Hr r. destruct (reachable_stream_exists s Hr) as [x Hx].
  assert (activeConfig (post_state r) = js_spread (activeConfig s) newConfig
          ∧ (∀ c, outcome r = inr c → c = activeConfig (post_state r))
          ∧ (is_Some (js_iterate (js_get (js_spread (activeConfig s) newConfig)
                                    "ffmpegOptions")) →
             outcome r = inr (activeConfig (post_state r)))) as (Hcfg & Hret & Hok).
  { subst r.
    destruct (js_iterate (js_get (js_spread (activeConfig s) newConfig) "ffmpegOptions"))
      as [opts|] eqn:Ho.
    - rewrite (updateStreamConfig_ok newConfig s x opts Hx Ho).
      unfold outcome, post_state; simpl. repeat split. congruence.
    - rewrite (updateStreamConfig_throws newConfig s x Hx Ho).
      unfold outcome, post_state; simpl. repeat split; [congruence|].
      intros [? ?]; congruence. }
  repeat split; try done.
  - intros k Hk. rewrite Hcfg. unfold js_spread. rewrite lookup_union_r; done.
  - intros k v Hk. rewrite Hcfg. unfold js_spread. by apply lookup_union_Some_l.
Qed.

Lemma update_merges_config_witness :
  activeConfig (post_state (updateStreamConfig {["label" := JStr "door"]} (init 0)))
    !! "label" = Some (JStr "door").
Proof.
  refine (proj1 (proj2 (update_merges_config (init 0) {["label" := JStr "door"]}
                          (reachable_init 0))) "label" (JStr "door") _).
  reflexivity.
Defined.

(** ** The lifecycle invariant and the failed update

    One client is connected; a configuration update whose [ffmpegOptions]
    is [null] comes in over HTTP. [createStream] stops the running instance
    and detaches its handlers before the spread throws. *)

(** C6 at the failing input: the state is reachable, a client is
    registered, no restart timer is pending, and the only decoder instance
    is stopped with its handlers detached; the invariant does not hold. *)
Theorem failed_update_breaks_lifecycle :
  reachable stalled
  ∧ activeClients stalled = ["c1"]
  ∧ timers stalled = [(10000, TResetCounters)]
  ∧ stream stalled =
      Some (mkFFMpeg 0 (JStr "rtsp://your-rtsp-url") (JNum 15) (JStr "640x360")
              (JNum 3)
              [JStr "-rtsp_transport"; JStr "udp"; JStr "-fflags"; JStr "nobuffer";
               JStr "-flags"; JStr "low_delay"] false false)
  ∧ ¬ lifecycle_invariant stalled.
Proof.
  assert (reachable stalled) as Hr.
  { apply (run_reachable _ _ (reachable_init 0)). simpl. done. }
  split; [exact Hr|]. split; [reflexivity|]. split; [reflexivity|].
  split; [reflexivity|].
  intros Hinv.
  assert (source_running stalled) as (x & Hx & Hrun).
  { apply Hinv.
    - intros [d Hd]. change (timers stalled) with [(10000, TResetCounters)] in Hd.
      apply list_elem_of_singleton in Hd. discriminate Hd.
    - discriminate. }
  vm_compute in Hx. injection Hx as <-. discriminate Hrun.
Qed.

(** ** Batched fan-out *)

Lemma batch_loop_spec clients : ∀ clientBatches currentBatch,
  (length currentBatch < MAX_CLIENTS_PER_FRAME)%nat →
  Forall (λ b, length b = MAX_CLIENTS_PER_FRAME) clientBatches →
  ∃ bs cur, batch_loop clients clientBatches currentBatch = (bs, cur)
    ∧ concat bs ++ cur = concat clientBatches ++ currentBatch ++ clients
    ∧ Forall (λ b, length b = MAX_CLIENTS_PER_FRAME) bs
    ∧ (length cur < MAX_CLIENTS_PER_FRAME)%nat.
Proof.
  unfold MAX_CLIENTS_PER_FRAME.
  induction clients as [|c clients IH]; intros bs0 cur0 Hcur Hbs; simpl.
  - exists bs0, cur0. by rewrite app_nil_r.
  - case_bool_decide as Hfull; unfold MAX_CLIENTS_PER_FRAME in Hfull.
    + destruct (IH (bs0 ++ [cur0 ++ [c]]) []) as (bs & cur & -> & Hcat & Hall & Hlt).
      * simpl; lia.
      * apply Forall_app. split; [done|]. constructor; [|done].
        rewrite length_app in *. simpl in *. lia.
      * exists bs, cur. split; [done|]. split; [|done].
        rewrite Hcat, concat_app. simpl. by rewrite app_nil_r, <- !app_assoc.
    + destruct (IH bs0 (cur0 ++ [c])) as (bs & cur & -> & Hcat & Hall & Hlt).
      * lia.
      * done.
      * exists bs, cur. split; [done|]. split; [|done].
        rewrite Hcat. by rewrite <- !app_assoc.
Qed.

Lemma length_concat_full (bs : list (list string)) n :
  Forall (λ b, length b = n) bs → length (concat bs) = (n * length bs)%nat.
Proof.
  induction 1 as [|b bs Hb _ IH]; simpl; [lia|].
  rewrite length_app, IH, Hb. lia.
Qed.

Lemma group_clients_spec clients :
  concat (group_clients clients) = clients
  ∧ length (group_clients clients) =
      ((length clients + (MAX_CLIENTS_PER_FRAME - 1)) / MAX_CLIENTS_PER_FRAME)%nat
  ∧ Forall (λ b, (0 < length b ≤ MAX_CLIENTS_PER_FRAME)%nat) (group_clients clients).
Proof.
  unfold group_clients.
  destruct (batch_loop_spec clients [] []) as (bs & cur & -> & Hcat & Hall & Hlt).
  { unfold MAX_CLIENTS_PER_FRAME. simpl. lia. }
  { constructor. }
  simpl in Hcat.
  assert (length clients = (MAX_CLIENTS_PER_FRAME * length bs + length cur)%nat) as Hn.
  { rewrite <- Hcat, length_app, (length_concat_full _ _ Hall). done. }
  assert (Forall (λ b, (0 < length b ≤ MAX_CLIENTS_PER_FRAME)%nat) bs) as Hall'.
  { eapply Forall_impl; [exact Hall|]. unfold MAX_CLIENTS_PER_FRAME. simpl. lia. }
  unfold MAX_CLIENTS_PER_FRAME in *.
  case_bool_decide as Hcur.
  - split; [|split].
    + rewrite concat_app. simpl. by rewrite app_nil_r.
    + rewrite length_app. simpl. rewrite Hn.
      apply (Nat.div_unique _ 10 _ (length cur - 1)); simpl; lia.
    + apply Forall_app. split; [done|]. constructor; [lia|done].
  - assert (length cur = 0%nat) as Hz by lia.
    destruct cur; [|done]. rewrite app_nil_r in Hcat.
    split; [done|]. split; [|done].
    rewrite Hn. simpl length. apply (Nat.div_unique _ 10 _ 9); simpl; lia.
Qed.

Definition clear_queues (cs : list string) (m : gmap string (list frame))
    : gmap string (list frame) :=
  foldl (λ m c, <[c := []]> m) m cs.

Lemma set_frameQueues_id s : set_frameQueues (frameQueues s) s = s.
Proof. by destruct s. Qed.

Lemma for_of_queue batch f s :
  for_of batch (λ c, queueFrameForClient c f) s =
    (inr tt, set_frameQueues (clear_queues (connected_of s batch) (frameQueues s)) s,
     map (λ c, AVolatileEmit c f) (connected_of s batch)).
Proof.
  revert s. induction batch as [|c batch IH]; intros s.
  - simpl. unfold connected_of, clear_queues. simpl. by rewrite set_frameQueues_id.
  - simpl. unfold mbind, M_bind, bind at 1.
    unfold connected_of. rewrite filter_cons.
    destruct (decide (sockets s !! c = Some true)) as [Hc|Hc].
    + rewrite queueFrameForClient_connected by done. rewrite IH. simpl.
      unfold connected_of. simpl. reflexivity.
    + rewrite queueFrameForClient_skipped by done. rewrite IH. simpl. reflexivity.
Qed.

(** A batch callback: the connected clients of the batch are sent the
    frame, in order, and the next batch, if there is one, gets a 5 ms timer. *)
Lemma processClientBatch_batch k bs f s batch :
  bs !! k = Some batch →
  let s1 := set_frameQueues (clear_queues (connected_of s batch) (frameQueues s)) s in
  processClientBatch k bs f s =
    if bool_decide (k + 1 < length bs)%nat
    then (inr tt, set_timers (timers s ++ [(now s + 5, TBatch (k + 1) bs f)]) s1,
          map (λ c, AVolatileEmit c f) (connected_of s batch)
            ++ [ASetTimeout 5 (TBatch (k + 1) bs f)])
    else (inr tt, s1, map (λ c, AVolatileEmit c f) (connected_of s batch)).
Proof.
  intros Hk s1. unfold processClientBatch. rewrite Hk.
  unfold mbind, M_bind, bind. rewrite for_of_queue. fold s1.
  case_bool_decide.
  - unfold setTimeout. munfold. reflexivity.
  - unfold ret. by rewrite app_nil_r.
Qed.

Lemma processClientBatch_done k bs f s :
  bs !! k = None → processClientBatch k bs f s = (inr tt, s, []).
Proof. intros Hk. unfold processClientBatch. by rewrite Hk. Qed.

Lemma emits_sent f cs : emits (map (λ c, AVolatileEmit c f) cs) = map (λ c, (c, f)) cs.
Proof. induction cs as [|c cs IH]; simpl; [done|]. unfold emits in *. simpl. by rewrite IH. Qed.

Lemma emits_app a1 a2 : emits (a1 ++ a2) = emits a1 ++ emits a2.
Proof. apply omap_app. Qed.

Lemma new_timers_app s l x :
  new_timers s (set_timers (timers s ++ l) x) = l.
Proof. unfold new_timers. simpl. by rewrite drop_app_length. Qed.

Lemma new_timers_same s x : timers x = timers s → new_timers s x = [].
Proof. intros H. unfold new_timers. rewrite H. apply drop_all. Qed.

Lemma follow_nil env fuel s : follow_timers env fuel [] s = ([], []).
Proof. by destruct fuel. Qed.

Lemma emits_cons_batch f cs ms t rest :
  emits (map (λ c, AVolatileEmit c f) cs ++ ASetTimeout ms t :: rest) =
    map (λ c, (c, f)) cs ++ emits rest.
Proof. by rewrite emits_app, emits_sent. Qed.

Lemma fst_sent (f : frame) (cs : list string) : (map (λ c, (c, f)) cs).*1 = cs.
Proof. by rewrite <- list_fmap_compose, list_fmap_id. Qed.

Section Chain.
Context (env : Z → state → state) (bs : list (list string)) (f : frame).
Hypothesis env_late : ∀ d s, d ≤ now (env d s).

(** The clients a chain of callbacks sends to, from batch [k] on. *)
Definition chain_emits (log : list firing) : list (string * frame) :=
  emits (concat (map fired_calls log)).

Lemma follow_chain n : ∀ k fuel d s,
  (k + S n = length bs)%nat → (S n ≤ fuel)%nat →
  ∃ log, follow_timers env fuel [(d, TBatch k bs f)] s = (log, [])
    ∧ map fired_task log = map (λ j, TBatch j bs f) (seq k (S n))
    ∧ staggered d log
    ∧ sublist (chain_emits log).*1 (concat (drop k bs))
    ∧ Forall (λ e, e.2 = f) (chain_emits log)
    ∧ (∀ c, c ∈ concat (drop k bs) → (∀ d s, sockets (env d s) !! c = Some true) →
         c ∈ (chain_emits log).*1).
Proof.
  induction n as [|n IH]; intros k fuel d s Hk Hfuel.
  - destruct fuel as [|fuel]; [lia|]. simpl.
    destruct (lookup_lt_is_Some_2 bs k) as [batch Hb]; [lia|].
    rewrite (processClientBatch_batch _ _ _ _ _ Hb).
    rewrite bool_decide_false by lia.
    unfold post_state, calls. simpl.
    rewrite new_timers_same by done.
    rewrite follow_nil.
    eexists; split; [reflexivity|]. simpl.
    unfold chain_emits; simpl. rewrite app_nil_r, emits_sent.
    rewrite (drop_S _ _ _ Hb), drop_ge by lia. simpl. rewrite app_nil_r.
    rewrite <- list_fmap_compose, list_fmap_id.
    split; [done|]. split; [by auto|]. split; [apply sublist_filter|].
    split.
    * apply Forall_fmap, Forall_true. done.
    * intros c Hc Hcon. apply list_elem_of_filter. split; [apply Hcon|done].
  - destruct fuel as [|fuel]; [lia|]. simpl.
    destruct (lookup_lt_is_Some_2 bs k) as [batch Hb]; [lia|].
    rewrite (processClientBatch_batch _ _ _ _ _ Hb).
    rewrite bool_decide_true by lia.
    unfold post_state, calls. simpl.
    rewrite new_timers_app. simpl.
    edestruct (IH (k + 1)%nat fuel) as (log & -> & Htasks & Htimed & Hsub & Hall & Hconn);
      [lia|lia|].
    eexists; split; [reflexivity|]. simpl.
    split; [|split; [|split; [|split]]].
    + rewrite Htasks. by replace (S k) with (k + 1)%nat by lia.
    + repeat split; [apply env_late|]. exact Htimed.
    + unfold chain_emits in *. simpl. rewrite <- app_assoc. simpl.
      rewrite emits_cons_batch, fmap_app, fst_sent.
      rewrite (drop_S _ _ _ Hb). simpl.
      apply sublist_app; [apply sublist_filter|].
      by replace (S k) with (k + 1)%nat by lia.
    + unfold chain_emits in *. simpl. rewrite <- app_assoc. simpl.
      rewrite emits_cons_batch.
      apply Forall_app. split; [|done].
      apply Forall_fmap, Forall_true. done.
    + intros c Hc Hcon. unfold chain_emits in *. simpl. rewrite <- app_assoc. simpl.
      rewrite emits_cons_batch, fmap_app, fst_sent.
      rewrite (drop_S _ _ _ Hb) in Hc. simpl in Hc.
      apply elem_of_app in Hc as [Hc|Hc]; apply elem_of_app.
      * left. apply list_elem_of_filter. split; [apply Hcon|done].
      * right. apply Hconn; [|done]. by replace (k + 1)%nat with (S k) by lia.
Qed.
End Chain.

Definition clients_distinct (s : state) : Prop := NoDup (activeClients s).

Lemma handle_clients_distinct ev : preserves clients_distinct (handle ev).
Proof.
  destruct ev; unfold handle;
    preserve_with ltac:(unfold on_connection, on_disconnect, on_update_config,
      post_config, post_config_reset, updateStreamConfig, startStreamIfNeeded,
      stopStreamIfNoClients, createStream, handleNewFrame, processClientBatch,
      queueFrameForClient, on_stream_start, on_stream_stop, on_stream_error,
      decoder_failed, run_task, restart_callback, reset_callback, setTimeout,
      stream_start, stream_stop, stream_removeAllListeners, stream_method);
    unfold clients_distinct in *; simpl; try done.
  - unfold set_add. case_bool_decide as Hin; [done|].
    apply NoDup_app. split; [done|]. split; [|apply NoDup_singleton].
    intros x Hx Hx'. apply list_elem_of_singleton in Hx'. by subst.
  - by apply NoDup_filter.
Qed.

Lemma reachable_clients_distinct s : reachable s → NoDup (activeClients s).
Proof.
  induction 1 as [t0|s ev Hr IH He].
  - rewrite init_eq. simpl. constructor.
  - by apply handle_clients_distinct.
Qed.

Definition counted (s : state) : state :=
  set_lastFrameTime (now s)
    (set_frameCount (frameCount s + 1) (set_totalFrames (totalFrames s + 1) s)).

Lemma handleNewFrame_eq f s :
  handleNewFrame f s =
    processClientBatch 0 (group_clients (activeClients s)) f (counted s).
Proof.
  unfold handleNewFrame. munfold. simpl.
  change (set_lastFrameTime _ _) with (counted s).
  destruct (processClientBatch _ _ _ _) as [[r s'] a]. reflexivity.
Qed.

(** C4. One broadcast in a reachable state, its batch timers followed to
    the end, whatever else happens in between ([env]), each timer firing no
    earlier than its deadline. The [N] registered clients are cut, in
    registration order, into ⌈N/10⌉ batches of 1 to 10; [handleNewFrame]
    itself sends to the connected clients of batch 0; the timer callbacks
    that follow are exactly those of batches 1, 2, ... in index order, none
    is left pending, and each was set 5 ms after its predecessor ran; no
    client is sent to twice, only registered clients are sent to, only this
    frame is sent, and a registered client that is connected throughout is
    sent to. *)
Theorem batch_completeness (env : Z → state → state) (s : state) (f : frame) :
  reachable s →
  (∀ d s', d ≤ now (env d s')) →
  let N := length (activeClients s) in
  let bs := group_clients (activeClients s) in
  let r := handleNewFrame f s in
  let chain :=
    follow_timers env (length bs) (new_timers s (post_state r)) (post_state r) in
  let sent := emits (calls r) ++ emits (concat (map fired_calls chain.1)) in
  length bs = ((N + (MAX_CLIENTS_PER_FRAME - 1)) / MAX_CLIENTS_PER_FRAME)%nat
  ∧ concat bs = activeClients s
  ∧ Forall (λ b, (0 < length b ≤ MAX_CLIENTS_PER_FRAME)%nat) bs
  ∧ (emits (calls r)).*1 = connected_of s (default [] (bs !! 0%nat))
  ∧ chain.2 = []
  ∧ map fired_task chain.1 = map (λ k, TBatch k bs f) (seq 1 (length bs - 1))
  ∧ staggered (now s + 5) chain.1
  ∧ NoDup sent.*1
  ∧ sublist sent.*1 (activeClients s)
  ∧ Forall (λ e, e.2 = f) sent
  ∧ (∀ c, c ∈ activeClients s → sockets s !! c = Some true →
       (∀ d s', sockets (env d s') !! c = Some true) → c ∈ sent.*1).
Proof.
  intros Hr Hlate N bs r chain sent.
  destruct (group_clients_spec (activeClients s)) as (Hcat & Hlen & Hall).
  fold bs in Hcat, Hlen, Hall. fold N in Hlen.
  pose proof (reachable_clients_distinct s Hr) as Hnd.
  assert ((emits (calls r)).*1 = connected_of s (default [] (bs !! 0%nat))
          ∧ chain.2 = []
          ∧ map fired_task chain.1 = map (λ k, TBatch k bs f) (seq 1 (length bs - 1))
          ∧ staggered (now s + 5) chain.1
          ∧ sublist sent.*1 (concat bs)
          ∧ Forall (λ e, e.2 = f) sent
          ∧ (∀ c, c ∈ concat bs → sockets s !! c = Some true →
               (∀ d s', sockets (env d s') !! c = Some true) → c ∈ sent.*1))
    as (H0 & Hleft & Htasks & Htimed & Hsub & Hf & Hconn).
  { subst sent chain r. rewrite handleNewFrame_eq. fold bs.
    destruct bs as [|b0 rest] eqn:Hbs.
    - rewrite processClientBatch_done by done. simpl.
      repeat split; try done. by apply new_timers_same.
    - rewrite (processClientBatch_batch 0 (b0 :: rest) f (counted s) b0 eq_refl).
      change (connected_of (counted s) b0) with (connected_of s b0).
      destruct rest as [|b1 rest].
      + rewrite bool_decide_false by (simpl; lia).
        unfold calls, post_state. simpl. rewrite new_timers_same by done. simpl.
        rewrite emits_sent, fst_sent, !app_nil_r, fst_sent.
        repeat split; try done.
        * apply sublist_filter.
        * apply Forall_fmap, Forall_true. done.
        * intros c Hc Hs _. apply list_elem_of_filter. done.
      + rewrite bool_decide_true by (simpl; lia).
        unfold calls, post_state. cbn [fst snd].
        rewrite (new_timers_app s).
        change (0 + 1)%nat with 1%nat.
        edestruct (follow_chain env (b0 :: b1 :: rest) f Hlate (length rest) 1
                     (length (b0 :: b1 :: rest)) (now (counted s) + 5))
          as (log & -> & Htasks & Htimed & Hsub & Hall' & Hconn);
          [simpl; lia|simpl; lia|].
        cbn [fst snd].
        rewrite emits_cons_batch.
        change (emits []) with (@nil (string * frame)). rewrite app_nil_r, fst_sent.
        split; [done|]. split; [done|].
        split; [exact Htasks|].
        split; [exact Htimed|].
        unfold chain_emits in *. rewrite !fmap_app, fst_sent.
        split; [|split].
        * simpl concat. simpl in Hsub. apply sublist_app; [apply sublist_filter|done].
        * apply Forall_app. split; [|done]. apply Forall_fmap, Forall_true. done.
        * intros c Hc Hs Hcon. simpl in Hc.
          apply elem_of_app in Hc as [Hc|Hc]; apply elem_of_app.
          -- left. apply list_elem_of_filter. done.
          -- right. apply Hconn; done. }
  rewrite Hcat in Hsub, Hconn.
  split; [exact Hlen|]. split; [exact Hcat|]. split; [exact Hall|].
  split; [exact H0|]. split; [exact Hleft|]. split; [exact Htasks|].
  split; [exact Htimed|]. split; [by eapply sublist_NoDup|].
  split; [exact Hsub|]. split; [exact Hf|]. exact Hconn.
Qed.

Lemma batch_completeness_witness :
  staggered (now crowd + 5)
    (follow_timers (λ d s, set_now d s) 2
       (new_timers crowd (post_state (handleNewFrame [Byte.x01] crowd)))
       (post_state (handleNewFrame [Byte.x01] crowd))).1.
Proof.
  assert (reachable crowd) as Hr.
  { apply (run_reachable _ _ (reachable_init 0)). simpl. tauto. }
  assert (∀ (d : Z) (s' : state), d ≤ now (set_now d s')) as Hlate.
  { intros d s'. simpl. lia. }
  pose proof (batch_completeness (λ d s, set_now d s) crowd [Byte.x01] Hr Hlate) as H.
  cbv zeta in H.
  exact (proj1 (proj2 (proj2 (proj2 (proj2 (proj2 (proj2 H))))))).
Defined.

(** ** Stats *)

Lemma Math_round_bounds (x : Q) :
  (x - (1 # 2) < inject_Z (Math_round x) ∧ inject_Z (Math_round x) <= x + (1 # 2))%Q.
Proof.
  unfold Math_round.
  pose proof (Qfloor_le (x + (1 # 2))) as Hle.
  pose proof (Qlt_floor (x + (1 # 2))) as Hlt.
  rewrite inject_Z_plus in Hlt. change (inject_Z 1) with 1%Q in Hlt.
  split; lra.
Qed.

Lemma Math_round_ge (x : Q) (n : Z) :
  (inject_Z n - (1 # 2) <= x)%Q → n ≤ Math_round x.
Proof.
  intros H. unfold Math_round. rewrite <- (Qfloor_Z n).
  apply Qfloor_resp_le. lra.
Qed.

Lemma Math_round_lt (x : Q) (n : Z) :
  (x < inject_Z n - (1 # 2))%Q → Math_round x < n.
Proof.
  intros H. destruct (Math_round_bounds x) as [_ Hle].
  apply Z.lt_nge. intros Hge.
  assert (inject_Z n <= inject_Z (Math_round x))%Q by (by rewrite <- Zle_Qle).
  lra.
Qed.


(** ** What each event does to the state, a decoder instance being there *)

Lemma step_connect s x id :
  stream s = Some x →
  let s1 := set_activeClients (set_add id (activeClients s)) s in
  step (EConnect id) s =
    if bool_decide (length (set_add id (activeClients s)) = 1%nat)
    then set_stream (Some (fs_set_running true x)) s1
    else s1.
Proof.
  intros Hx s1. unfold step, handle, on_connection. munfold. simpl. fold s1.
  case_bool_decide as Hlen; simpl; [|done].
  rewrite (startStreamIfNeeded_some s1 x); [done|exact Hx|].
  simpl. destruct (set_add id (activeClients s)); [done|discriminate].
Qed.

Lemma step_disconnect s x id :
  stream s = Some x →
  let s1 := set_frameQueues (delete id (frameQueues s))
              (set_activeClients (set_delete id (activeClients s)) s) in
  step (EDisconnect id) s =
    if bool_decide (set_delete id (activeClients s) = [])
    then set_stream (Some (fs_set_running false x)) s1
    else s1.
Proof.
  intros Hx s1. unfold step, handle, on_disconnect.
  unfold mbind, M_bind, bind, modify, post_state.
  change (stopStreamIfNoClients _) with (stopStreamIfNoClients s1).
  case_bool_decide as Hl.
  - rewrite (stopStreamIfNoClients_last s1 x); [done|exact Hx|exact Hl].
  - rewrite (stopStreamIfNoClients_others s1); [done|exact Hl].
Qed.

Lemma step_post_config s x body :
  stream s = Some x →
  let merged := js_spread (activeConfig s) body in
  step (EPostConfig body) s =
    match js_iterate (js_get merged "ffmpegOptions") with
    | Some opts =>
        set_next_id (S (next_id s))
          (set_stream (Some (started_if_clients s (new_instance merged opts (next_id s))))
             (set_activeConfig merged s))
    | None => set_stream (Some (torn_down x)) (set_activeConfig merged s)
    end.
Proof.
  intros Hx merged. unfold step, handle. unfold mbind, M_bind, bind.
  destruct (js_iterate (js_get merged "ffmpegOptions")) as [opts|] eqn:Ho.
  - by rewrite (post_config_ok body s x opts Hx Ho).
  - by rewrite (post_config_throws body s x Hx Ho).
Qed.

Lemma step_post_reset s : step EPostReset s = step (EPostConfig defaultConfig) s.
Proof. reflexivity. Qed.

Lemma step_update_config s x id body :
  stream s = Some x →
  let merged := js_spread (activeConfig s) body in
  step (EUpdateConfig id body) s =
    match js_iterate (js_get merged "ffmpegOptions") with
    | Some opts =>
        set_timers (timers s ++ [(now s + 1000, TReady)])
          (set_next_id (S (next_id s))
            (set_stream (Some (started_if_clients s (new_instance merged opts (next_id s))))
               (set_activeConfig merged s)))
    | None => set_stream (Some (torn_down x)) (set_activeConfig merged s)
    end.
Proof.
  intros Hx merged. unfold step, handle.
  destruct (js_iterate (js_get merged "ffmpegOptions")) as [opts|] eqn:Ho.
  - unfold on_update_config, try_catch, setTimeout, mbind, M_bind, bind.
    rewrite (updateStreamConfig_ok body s x opts Hx Ho). reflexivity.
  - by rewrite (on_update_config_throws id body s x Hx Ho).
Qed.

Definition batch_done (k : nat) (bs : list (list string)) (f : frame) (s : state) : state :=
  match bs !! k with
  | Some batch =>
      let s1 := set_frameQueues (clear_queues (connected_of s batch) (frameQueues s)) s in
      if bool_decide (k + 1 < length bs)%nat
      then set_timers (timers s ++ [(now s + 5, TBatch (k + 1) bs f)]) s1
      else s1
  | None => s
  end.

Lemma processClientBatch_state k bs f s :
  post_state (processClientBatch k bs f s) = batch_done k bs f s.
Proof.
  unfold batch_done. destruct (bs !! k) as [batch|] eqn:Hk.
  - rewrite (processClientBatch_batch k bs f s batch Hk). by case_bool_decide.
  - by rewrite processClientBatch_done.
Qed.

Lemma step_data s f :
  step (EData f) s = batch_done 0 (group_clients (activeClients s)) f (counted s).
Proof.
  unfold step, handle. by rewrite handleNewFrame_eq, processClientBatch_state.
Qed.

Lemma step_error s x err :
  stream s = Some x →
  let s1 := set_stream (Some (fs_set_running false x)) s in
  step (EStreamError err) s =
    if bool_decide (activeClients s = []) then s1
    else set_timers (timers s ++ [(now s + 5000, TRestart)]) s1.
Proof.
  intros Hx s1. unfold step, handle, decoder_failed.
  unfold mbind, M_bind, bind, modify. rewrite Hx. simpl. fold s1.
  case_bool_decide as Hc.
  - by rewrite (on_stream_error_no_clients s1 err).
  - by rewrite (on_stream_error_clients s1 err).
Qed.

Definition task_done (t : task) (s : state) : state :=
  match t with
  | TResetCounters =>
      set_timers (timers s ++ [(now s + 10000, TResetCounters)])
        (set_lastCounterReset (now s) (set_frameCount 0 s))
  | TRestart =>
      match stream s with
      | Some x =>
          if bool_decide (activeClients s = []) then s
          else set_stream (Some (fs_set_running true x)) s
      | None => post_state (restart_callback s)
      end
  | TBatch k bs f => batch_done k bs f s
  | TReady => s
  end.

Lemma run_task_state t s : post_state (run_task t s) = task_done t s.
Proof.
  destruct t as [| |k bs f|]; simpl.
  - reflexivity.
  - destruct (stream s) as [x|] eqn:Hx; [|done].
    case_bool_decide as Hc.
    + by rewrite restart_callback_no_clients.
    + by rewrite (restart_callback_clients s x).
  - apply processClientBatch_state.
  - reflexivity.
Qed.

Lemma step_fire s i :
  step (EFire i) s =
    match timers s !! i with
    | Some (_, t) => task_done t (set_timers (delete i (timers s)) s)
    | None => s
    end.
Proof.
  destruct (timers s !! i) as [[d t]|] eqn:Hi.
  - unfold step. rewrite (fire_eq s i d t Hi). apply run_task_state.
  - unfold step, handle. munfold. by rewrite Hi.
Qed.

Lemma batch_done_fields k bs f s :
  stream (batch_done k bs f s) = stream s
  ∧ activeClients (batch_done k bs f s) = activeClients s
  ∧ activeConfig (batch_done k bs f s) = activeConfig s
  ∧ now (batch_done k bs f s) = now s
  ∧ frameCount (batch_done k bs f s) = frameCount s
  ∧ totalFrames (batch_done k bs f s) = totalFrames s
  ∧ lastCounterReset (batch_done k bs f s) = lastCounterReset s
  ∧ lastFrameTime (batch_done k bs f s) = lastFrameTime s
  ∧ (timers (batch_done k bs f s) = timers s
     ∨ timers (batch_done k bs f s) = timers s ++ [(now s + 5, TBatch (k + 1) bs f)]).
Proof.
  unfold batch_done. destruct (bs !! k); [|tauto].
  case_bool_decide; simpl; tauto.
Qed.

Lemma delete_none {A} (l : list A) (i : nat) : l !! i = None → delete i l = l.
Proof.
  revert i. induction l as [|a l IH]; intros [|i]; simpl; try done.
  intros H. f_equal. by apply IH.
Qed.


(** ** Timers and counters *)

(** The delay each callback is scheduled with. *)
Definition delay (t : task) : Z :=
  match t with
  | TResetCounters => 10000
  | TRestart => 5000
  | TBatch _ _ _ => 5
  | TReady => 1000
  end.

Definition is_reset (t : task) : bool :=
  match t with TResetCounters => true | _ => false end.

Definition resets (ts : list (Z * task)) : nat :=
  length (filter (λ dt, is_reset dt.2 = true) ts).

(** Does this event run the counter reset? *)
Definition fires_reset (ev : event) (s : state) : bool :=
  match ev with
  | EFire i =>
      match timers s !! i with Some (_, t) => is_reset t | None => false end
  | _ => false
  end.

Definition is_data (ev : event) : bool :=
  match ev with EData _ => true | _ => false end.

Lemma batch_done_effects k bs f s :
  ∃ new, timers (batch_done k bs f s) = timers s ++ new
    ∧ Forall (λ dt, dt.1 = now s + delay dt.2) new
    ∧ resets new = 0%nat.
Proof.
  destruct (batch_done_fields k bs f s) as (_ & _ & _ & _ & _ & _ & _ & _ & [Ht|Ht]).
  - exists []. rewrite app_nil_r. by repeat split.
  - eexists. split; [exact Ht|]. split; [|done]. by repeat constructor.
Qed.

(** What one event does to the clock, the timers and the counters. *)
Lemma step_effects ev s :
  is_Some (stream s) →
  ∃ new, timers (step ev s) = kept_timers ev s ++ new
    ∧ Forall (λ dt, dt.1 = now s + delay dt.2) new
    ∧ resets new = (if fires_reset ev s then 1 else 0)%nat
    ∧ now (step ev s) = (match ev with ETick dt => now s + dt | _ => now s end)
    ∧ lastCounterReset (step ev s) =
        (if fires_reset ev s then now s else lastCounterReset s)
    ∧ totalFrames (step ev s) = (if is_data ev then totalFrames s + 1 else totalFrames s)
    ∧ frameCount (step ev s) =
        (if fires_reset ev s then 0
         else if is_data ev then frameCount s + 1 else frameCount s).
Proof.
  intros [x Hx].
  destruct ev as [id|id|id body|body| |f| | |err|id c|dt|i]; simpl kept_timers;
    simpl fires_reset; simpl is_data; cbv iota.
  - rewrite (step_connect s x id Hx). exists []. rewrite app_nil_r.
    case_bool_decide; simpl; by repeat split.
  - rewrite (step_disconnect s x id Hx). exists []. rewrite app_nil_r.
    case_bool_decide; simpl; by repeat split.
  - rewrite (step_update_config s x id body Hx).
    destruct (js_iterate _); simpl.
    + eexists. split; [reflexivity|]. split; [by repeat constructor|]. by repeat split.
    + exists []. rewrite app_nil_r. by repeat split.
  - rewrite (step_post_config s x body Hx). exists []. rewrite app_nil_r.
    destruct (js_iterate _); simpl; by repeat split.
  - rewrite step_post_reset, (step_post_config s x defaultConfig Hx).
    exists []. rewrite app_nil_r.
    destruct (js_iterate _); simpl; by repeat split.
  - rewrite step_data.
    destruct (batch_done_fields 0 (group_clients (activeClients s)) f (counted s))
      as (_ & _ & _ & Hn & Hfc & Htf & Hr & _ & _).
    destruct (batch_done_effects 0 (group_clients (activeClients s)) f (counted s))
      as (new & Ht & Hnew & Hres).
    exists new. rewrite Ht, Hn, Hfc, Htf, Hr. simpl. by repeat split.
  - exists []. rewrite app_nil_r. simpl. by repeat split.
  - exists []. rewrite app_nil_r. simpl. by repeat split.
  - rewrite (step_error s x err Hx). case_bool_decide; simpl.
    + exists []. rewrite app_nil_r. by repeat split.
    + eexists. split; [reflexivity|]. split; [by repeat constructor|]. by repeat split.
  - exists []. rewrite app_nil_r. simpl. by repeat split.
  - exists []. rewrite app_nil_r. simpl. by repeat split.
  - rewrite step_fire. destruct (timers s !! i) as [[d t]|] eqn:Hi.
    + destruct t as [| |k bs f|]; simpl.
      * eexists. split; [reflexivity|]. split; [by repeat constructor|]. by repeat split.
      * rewrite Hx. exists []. rewrite app_nil_r.
        case_bool_decide; simpl; by repeat split.
      * destruct (batch_done_fields k bs f (set_timers (delete i (timers s)) s))
          as (_ & _ & _ & Hn & Hfc & Htf & Hr & _ & _).
        destruct (batch_done_effects k bs f (set_timers (delete i (timers s)) s))
          as (new & Ht & Hnew & Hres).
        exists new. rewrite Ht, Hn, Hfc, Htf, Hr. simpl. by repeat split.
      * exists []. rewrite app_nil_r. by repeat split.
    + exists []. rewrite app_nil_r. simpl.
      rewrite delete_none by done. by repeat split.
Qed.

Lemma kept_restart ev s j d :
  timers s !! j = Some (d, TRestart) → ev ≠ EFire j →
  (d, TRestart) ∈ kept_timers ev s.
Proof.
  intros Hj Hev. apply list_elem_of_lookup.
  destruct ev; simpl; try by exists j.
  destruct (decide (j < i)%nat).
  - exists j. by rewrite list_lookup_delete_lt by lia.
  - assert (j ≠ i) by congruence.
    exists (j - 1)%nat. rewrite list_lookup_delete_ge by lia.
    by replace (S (j - 1)) with j by lia.
Qed.

(** C5, amended. In every reachable state: a decoder error with at least one
    client registered sets exactly one timer, 5000 ms ahead, and calls no
    [start] by itself; with no client registered it sets none. No event
    removes a timer other than the one it fires, so a pending restart stays
    pending, whoever connects or disconnects, until it fires itself. It
    fires no earlier than its deadline, and then the client set is looked at
    again: empty, [start] is not called; not empty, [start] is called once,
    on the current instance. *)
Theorem recovery_delay (s : state) (err : js_error) (ev : event) :
  reachable s →
  let r := handle (EStreamError err) s in
  (activeClients s ≠ [] →
     timers (post_state r) = timers s ++ [(now s + 5000, TRestart)]
     ∧ start_calls (calls r) = [])
  ∧ (activeClients s = [] → timers (post_state r) = timers s)
  ∧ (∃ new, timers (step ev s) = kept_timers ev s ++ new)
  ∧ (∀ j d, timers s !! j = Some (d, TRestart) → ev ≠ EFire j →
       (d, TRestart) ∈ timers (step ev s))
  ∧ (∀ i d, timers s !! i = Some (d, TRestart) →
       (enabled (EFire i) s → d ≤ now s)
       ∧ ∃ x, stream s = Some x
           ∧ start_calls (calls (handle (EFire i) s)) =
               if bool_decide (activeClients s = []) then [] else [fs_id x]).
Proof.
  intros Hr r. subst r.
  pose proof (reachable_stream_exists s Hr) as Hs.
  destruct (step_effects ev s Hs) as (new & Hnew & _).
  split; [|split; [|split; [|split]]].
  - intros Hc. unfold handle, decoder_failed.
    unfold mbind, M_bind, bind, modify.
    rewrite on_stream_error_clients by done. by split.
  - intros Hc. unfold handle, decoder_failed.
    unfold mbind, M_bind, bind, modify.
    rewrite on_stream_error_no_clients by done. done.
  - by exists new.
  - intros j d Hj Hev. rewrite Hnew. apply elem_of_app. left.
    by apply (kept_restart ev s j).
  - intros i d Hi. split.
    + intros (d' & t' & Hi' & Hd). rewrite Hi in Hi'. by injection Hi' as <- <-.
    + destruct Hs as [x Hx]. exists x. split; [done|].
      rewrite (fire_eq _ _ _ _ Hi). simpl. case_bool_decide as Hc.
      * by rewrite restart_callback_no_clients.
      * by rewrite (restart_callback_clients _ x).
Qed.

Lemma recovery_delay_witness :
  start_calls (calls (handle (EFire 1) awaiting_restart)) = [0%nat].
Proof.
  assert (reachable awaiting_restart) as Hr.
  { apply (run_reachable _ _ (reachable_init 0)).
    apply all_enabledb_enabled. vm_compute. reflexivity. }
  destruct (proj2 (proj2 (proj2 (proj2
              (recovery_delay awaiting_restart (mkError "timeout" JUndef)
                 (ETick 0) Hr)))) 1%nat 5000 eq_refl) as (_ & x & Hx & Hstart).
  vm_compute in Hx. injection Hx as <-. exact Hstart.
Defined.

(** C7, amended. In every reachable state a configuration update is merged
    into the active configuration as it comes, with no validation, and the
    merged configuration is stored whether the update goes through or not.
    When the merged [ffmpegOptions] can be spread (an array or a string),
    [stop] is called on the instance in place, one new instance is built
    from the merged configuration and put in its place with the handlers
    attached, and the merged configuration is the answer (on the socket path
    it is broadcast); no error is reported to anyone. When it cannot, the
    requester is sent a structured error with a message (status 400 over
    HTTP, an ['error'] event on the socket) and nobody else is sent one.
    [stop_calls] and [new_calls] read the calls this code makes on the
    decoder object; what the decoder library does inside them (it may start
    or stop its child process as listeners come and go) is not part of
    the statement. *)
Theorem config_update_contract (s : state) (body : gmap string jsval) (id : string) :
  reachable s →
  let merged := js_spread (activeConfig s) body in
  let http := post_config body s in
  let sock := on_update_config id body s in
  activeConfig (post_state http) = merged
  ∧ activeConfig (post_state sock) = merged
  ∧ ∃ x, stream s = Some x
    ∧ (∀ opts, js_iterate (js_get merged "ffmpegOptions") = Some opts →
         outcome http = inr (Json200 merged)
         ∧ stop_calls (calls http) = [fs_id x]
         ∧ new_calls (calls http) = [next_id s]
         ∧ (∃ inst, stream (post_state http) = Some inst
              ∧ fs_id inst = next_id s ∧ fs_listening inst = true
              ∧ fs_options inst =
                  (js_get merged "rtspUrl", js_get merged "frameRate",
                   js_get merged "resolution", js_get merged "quality",
                   JStr "-rtsp_transport" :: js_get merged "transport" :: opts))
         ∧ error_reports (calls http) = []
         ∧ stop_calls (calls sock) = [fs_id x]
         ∧ new_calls (calls sock) = [next_id s]
         ∧ AIoEmit "config" (PConfig merged) ∈ calls sock
         ∧ error_reports (calls sock) = [])
    ∧ (js_iterate (js_get merged "ffmpegOptions") = None →
         (∃ msg, outcome http = inr (Json400 msg))
         ∧ error_reports (calls http) = []
         ∧ error_reports (calls sock) = [Some id]
         ∧ ASocketEmit id "error" (PMessage "Failed to update stream configuration")
             ∈ calls sock
         ∧ (∀ c, AIoEmit "config" (PConfig c) ∉ calls sock)).
Proof.
  intros Hr merged http sock. destruct (reachable_stream_exists s Hr) as [x Hx].
  assert (activeConfig (post_state http) = merged
          ∧ activeConfig (post_state sock) = merged) as [H1 H2].
  { change (post_state sock) with (step (EUpdateConfig id body) s).
    rewrite (step_update_config s x id body Hx). fold merged. subst http.
    destruct (js_iterate (js_get merged "ffmpegOptions")) as [opts|] eqn:Ho.
    - by rewrite (post_config_ok body s x opts Hx Ho).
    - by rewrite (post_config_throws body s x Hx Ho). }
  split; [exact H1|]. split; [exact H2|].
  exists x. split; [done|]. split.
  - intros opts Ho. subst http sock.
    rewrite (on_update_config_ok id body s x opts Hx Ho).
    rewrite (post_config_ok body s x opts Hx Ho). fold merged.
    unfold outcome, post_state, calls. simpl.
    split; [done|].
    split; [by case_bool_decide|]. split; [by case_bool_decide|].
    split.
    { eexists. split; [reflexivity|]. unfold started_if_clients.
      by case_bool_decide. }
    split; [by case_bool_decide|].
    split; [by case_bool_decide|]. split; [by case_bool_decide|].
    split; [case_bool_decide; set_solver|by case_bool_decide].
  - intros Ho. subst http sock.
    rewrite (on_update_config_throws id body s x Hx Ho).
    rewrite (post_config_throws body s x Hx Ho).
    unfold outcome, post_state, calls. simpl.
    split; [eauto|]. split; [done|]. split; [done|]. split; [set_solver|].
    intros c Hin. repeat (apply elem_of_cons in Hin as [Hin|Hin]; [discriminate|]).
    by apply elem_of_nil in Hin.
Qed.

Lemma config_update_contract_witness :
  outcome (post_config {["quality" := JNum 5]} (init 0)) =
    inr (Json200 (js_spread defaultConfig {["quality" := JNum 5]})).
Proof.
  destruct (config_update_contract (init 0) {["quality" := JNum 5]} "c1"
              (reachable_init 0)) as (_ & _ & x & _ & Hok & _).
  exact (proj1 (Hok _ eq_refl)).
Defined.

(** ** Stats *)

Section StatsProofs.
Context (div64 : Z → Q → Q) (Hdiv : double_division div64).

Lemma gate_open (a : Z) :
  Qltb (div64 a 1000) 5 = bool_decide (a < 5000).
Proof.
  unfold Qltb. case_bool_decide as Ha.
  - assert (div64 a 1000 < 5)%Q as Hlt.
    { pose proof (div64_monotone div64 Hdiv a 4999 1000 ltac:(reflexivity) ltac:(lia)) as Hm.
      destruct (div64_accurate div64 Hdiv 4999 1000) as [_ Hacc];
        [lia|discriminate|discriminate|].
      unfold unit_roundoff in Hacc. change (inject_Z 4999) with 4999%Q in Hacc.
      assert (div64 4999 1000 < 5)%Q by lra. lra. }
    destruct (Qle_bool 5 (div64 a 1000)) eqn:Hb; [|done].
    apply Qle_bool_iff in Hb. lra.
  - assert (5 <= div64 a 1000)%Q as Hge.
    { pose proof (div64_monotone div64 Hdiv 5000 a 1000 ltac:(reflexivity) ltac:(lia)) as Hm.
      pose proof (div64_exact div64 Hdiv 5 1000 ltac:(lia) ltac:(simpl; lia)) as He.
      change (5 * 1000)%Z with 5000 in He. change (inject_Z 1000) with 1000%Q in He.
      change (inject_Z 5) with 5%Q in He. lra. }
    apply Qle_bool_iff in Hge. by rewrite Hge.
Qed.

Lemma divisor_close (d : Z) :
  d ≤ 2 ^ 53 →
  let t := div64 d 1000 in
  let tau := (inject_Z d / 1000)%Q in
  (1 <= Qmax 1 t ∧ Qmax 1 t <= inject_Z (2 ^ 53)
   ∧ Qmax 1 tau * (1 - unit_roundoff) <= Qmax 1 t
   ∧ Qmax 1 t <= Qmax 1 tau * (1 + unit_roundoff))%Q.
Proof.
  intros Hd t tau. unfold unit_roundoff.
  change (inject_Z (2 ^ 53)) with 9007199254740992%Q.
  assert (inject_Z d <= 9007199254740992)%Q as HdQ.
  { change 9007199254740992%Q with (inject_Z (2 ^ 53)). by rewrite <- Zle_Qle. }
  assert (tau * 1000 == inject_Z d)%Q as Htd by (subst tau; field).
  clearbody tau.
  destruct (Z_le_gt_dec d 0) as [Hneg|Hpos].
  - assert (t <= 0)%Q as Ht.
    { pose proof (div64_monotone div64 Hdiv d 0 1000 ltac:(reflexivity) Hneg) as Hm.
      pose proof (div64_exact div64 Hdiv 0 1000 ltac:(lia) ltac:(simpl; lia)) as He.
      change (0 * 1000)%Z with 0 in He. change (inject_Z 1000) with 1000%Q in He.
      change (inject_Z 0) with 0%Q in He. subst t. lra. }
    assert (tau <= 0)%Q as Htau.
    { assert (inject_Z d <= 0)%Q.
      { change 0%Q with (inject_Z 0). by rewrite <- Zle_Qle. }
      lra. }
    rewrite (Q.max_l 1 t) by lra. rewrite (Q.max_l 1 tau) by lra. lra.
  - destruct (div64_accurate div64 Hdiv d 1000) as [Hlo Hhi];
      [lia|discriminate|discriminate|].
    fold t in Hlo, Hhi. unfold unit_roundoff in Hlo, Hhi.
    assert (0 < inject_Z d)%Q as HdP.
    { change 0%Q with (inject_Z 0). rewrite <- Zlt_Qlt. lia. }
    destruct (Q.max_spec 1 t) as [[H1 ->]|[H1 ->]];
      destruct (Q.max_spec 1 tau) as [[H2 ->]|[H2 ->]]; lra.
Qed.

Lemma quotient_close (a d : Z) :
  0 < a ≤ 2 ^ 53 → d ≤ 2 ^ 53 →
  let q := div64 a (Qmax 1 (div64 d 1000)) in
  let rate := (inject_Z a / Qmax 1 (inject_Z d / 1000))%Q in
  (rate * (1 - 3 * unit_roundoff) <= q ∧ q <= rate * (1 + 3 * unit_roundoff))%Q.
Proof.
  intros Ha Hd q rate.
  destruct (divisor_close d Hd) as (Hm1 & Hm2 & Hlo & Hhi).
  destruct (div64_accurate div64 Hdiv a (Qmax 1 (div64 d 1000))) as [Hqlo Hqhi];
    [lia|done|done|].
  fold q in Hqlo, Hqhi.
  set (m := Qmax 1 (div64 d 1000)) in *.
  set (M := Qmax 1 (inject_Z d / 1000)) in *.
  assert (1 <= M)%Q as HM by apply Q.le_max_l.
  assert (0 < inject_Z a)%Q as HaP.
  { change 0%Q with (inject_Z 0). rewrite <- Zlt_Qlt. lia. }
  unfold unit_roundoff in *.
  set (A := inject_Z a) in *.
  assert (0 < q)%Q as Hq.
  { destruct (Qlt_le_dec 0 q) as [|Hq0]; [done|]. exfalso.
    assert (q * m <= 0)%Q by nra. lra. }
  assert (rate * M == A)%Q as Hrate.
  { subst rate. field. lra. }
  assert (q * M * (1 - (1 # 9007199254740992)) <= q * m)%Q as H1 by nra.
  assert (q * m <= q * M * (1 + (1 # 9007199254740992)))%Q as H2 by nra.
  split.
  - apply (Qmult_le_r _ _ M); [lra|]. nra.
  - apply (Qmult_le_r _ _ M); [lra|]. nra.
Qed.

Lemma currentFps_cases (s : state) (cap : Z) :
  maxConfigFps (activeConfig s) = Some cap →
  frameCount s ≤ 2 ^ 53 →
  now s - lastCounterReset s ≤ 2 ^ 53 →
  let rate :=
    (inject_Z (frameCount s) / Qmax 1 (inject_Z (now s - lastCounterReset s) / 1000))%Q in
  (frameCount s ≤ 0 ∨ 5000 ≤ now s - lastFrameTime s → currentFps div64 s = Some 0)
  ∧ (0 < frameCount s → now s - lastFrameTime s < 5000 →
       ∃ raw, currentFps div64 s = Some (Z.min raw cap)
         ∧ 0 ≤ raw
         ∧ (rate * (1 - 3 * unit_roundoff) - (1 # 2) < inject_Z raw
            ∧ inject_Z raw <= rate * (1 + 3 * unit_roundoff) + (1 # 2))%Q).
Proof.
  intros Hcap Hfc Hd rate. unfold currentFps, secondsElapsed, timeSinceReset.
  rewrite gate_open, Hcap. split.
  - intros [Hz|Hstale].
    + destruct (0 <? frameCount s) eqn:Hpos; [apply Z.ltb_lt in Hpos; lia|done].
    + rewrite bool_decide_false by lia. by rewrite andb_false_r.
  - intros Hpos Hfresh.
    rewrite (proj2 (Z.ltb_lt _ _) Hpos), bool_decide_true by done. simpl.
    eexists. split; [reflexivity|].
    destruct (quotient_close (frameCount s) (now s - lastCounterReset s))
      as [Hlo Hhi]; [lia|done|]. fold rate in Hlo, Hhi.
    set (q := div64 (frameCount s) (Qmax 1 (div64 (now s - lastCounterReset s) 1000)))
      in *.
    destruct (Math_round_bounds q) as [Hr1 Hr2].
    assert (0 < rate)%Q as Hrate.
    { subst rate. apply Qlt_shift_div_l.
      - pose proof (Q.le_max_l 1 (inject_Z (now s - lastCounterReset s) / 1000)). lra.
      - rewrite Qmult_0_l. change 0%Q with (inject_Z 0). by rewrite <- Zlt_Qlt. }
    unfold unit_roundoff in *.
    split; [|split; lra].
    apply Math_round_ge. change (inject_Z 0) with 0%Q.
    revert Hlo Hrate. generalize rate. intros r Hlo Hrate. nra.
Qed.

End StatsProofs.

(** Exact division is one such division. *)
Definition exact_div (a : Z) (b : Q) : Q := inject_Z a / b.

Lemma exact_div_double : double_division exact_div.
Proof.
  split; unfold exact_div, unit_roundoff.
  - intros a b [Ha _] Hb _.
    assert (0 <= inject_Z a)%Q by (change 0%Q with (inject_Z 0); by rewrite <- Zle_Qle).
    assert (inject_Z a / b * b == inject_Z a)%Q as -> by (field; lra).
    split; nra.
  - intros a a' b Hb Ha. apply Qmult_le_compat_r.
    + by rewrite <- Zle_Qle.
    + apply Qlt_le_weak, Qinv_lt_0_compat, Hb.
  - intros q b Hb _. rewrite inject_Z_mult. field.
    change 0%Q with (inject_Z 0). rewrite inject_Z_injective. lia.
Qed.

Lemma inject_Z_between (r n : Z) :
  (inject_Z n - 1 < inject_Z r)%Q → (inject_Z r < inject_Z n + 1)%Q → r = n.
Proof.
  intros H1 H2.
  change 1%Q with (inject_Z 1) in *.
  rewrite <- inject_Z_plus in H2.
  assert (inject_Z n < inject_Z r + inject_Z 1)%Q as H1' by lra.
  rewrite <- inject_Z_plus in H1'. rewrite <- Zlt_Qlt in *. lia.
Qed.

(** C9, amended. For any division on doubles with the properties of
    [double_division], any state whose target rate [cap] is read from the
    configuration (an integer [frameRate], or 30 when [frameRate] is falsy),
    and counters within the exact integer range of a double: the stats
    report the rate of [currentFps]. It is 0 when no frame was counted since
    the last reset, or when [lastFrameTime] lies 5000 ms back or more;
    [lastFrameTime] is set by every frame and by every ['start'] event of
    the decoder. Otherwise it is [min raw cap], where [raw] is the integer
    nearest to framesSinceReset / max(1, secondsSinceReset), up to the
    rounding of the two double divisions (a relative 3 * 2^-53 around the
    exact quotient, which decides ties such as 12.5). With a target that is
    not negative the reported rate lies between 0 and the target. The reset
    callback zeroes the counter, moves [lastCounterReset] to the present and
    is set again 10000 ms ahead. *)
Theorem reported_frame_rate (div64 : Z → Q → Q) (s : state) (cap : Z) :
  double_division div64 →
  maxConfigFps (activeConfig s) = Some cap →
  frameCount s ≤ 2 ^ 53 →
  now s - lastCounterReset s ≤ 2 ^ 53 →
  let rate :=
    (inject_Z (frameCount s) / Qmax 1 (inject_Z (now s - lastCounterReset s) / 1000))%Q in
  ∃ fps st,
    currentFps div64 s = Some fps
    ∧ getStreamStats div64 s = Some st ∧ stats_currentFps st = fps
    ∧ (frameCount s ≤ 0 ∨ 5000 ≤ now s - lastFrameTime s → fps = 0)
    ∧ (0 < frameCount s → now s - lastFrameTime s < 5000 →
         ∃ raw, fps = Z.min raw cap
           ∧ (rate * (1 - 3 * unit_roundoff) - (1 # 2) < inject_Z raw
              ∧ inject_Z raw <= rate * (1 + 3 * unit_roundoff) + (1 # 2))%Q)
    ∧ (0 ≤ cap → 0 ≤ fps ≤ cap)
    ∧ (truthy (js_get (activeConfig s) "frameRate") = false → cap = 30)
    ∧ (∀ n, js_get (activeConfig s) "frameRate" = JNum n → n ≠ 0 → cap = n)
    ∧ (∀ f, lastFrameTime (step (EData f) s) = now s)
    ∧ lastFrameTime (step EStreamStart s) = now s
    ∧ (let r := run_task TResetCounters s in
       frameCount (post_state r) = 0
       ∧ lastCounterReset (post_state r) = now s
       ∧ new_timers s (post_state r) = [(now s + 10000, TResetCounters)]).
Proof.
  intros Hdiv Hcap Hfc Hd rate.
  destruct (currentFps_cases div64 Hdiv s cap Hcap Hfc Hd) as [Hzero Hopen].
  fold rate in Hopen.
  assert (∃ fps, currentFps div64 s = Some fps
            ∧ (frameCount s ≤ 0 ∨ 5000 ≤ now s - lastFrameTime s → fps = 0)
            ∧ (0 < frameCount s → now s - lastFrameTime s < 5000 →
               ∃ raw, fps = Z.min raw cap
                 ∧ (rate * (1 - 3 * unit_roundoff) - (1 # 2) < inject_Z raw
                    ∧ inject_Z raw <= rate * (1 + 3 * unit_roundoff) + (1 # 2))%Q)
            ∧ (0 ≤ cap → 0 ≤ fps ≤ cap)) as (fps & Hfps & H1 & H2 & H3).
  { destruct (Z_le_gt_dec (frameCount s) 0) as [Hz|Hpos];
      [|destruct (Z_lt_le_dec (now s - lastFrameTime s) 5000) as [Hfresh|Hstale]].
    - exists 0. split; [apply Hzero; by left|]. split; [done|]. split; [lia|lia].
    - destruct Hopen as (raw & Hraw & Hnn & Hb); [lia|done|].
      exists (Z.min raw cap). split; [done|]. split; [lia|]. split; [|lia].
      intros _ _. by exists raw.
    - exists 0. split; [apply Hzero; by right|]. split; [done|]. split; [lia|lia]. }
  exists fps. unfold getStreamStats. rewrite Hfps. simpl.
  eexists. split; [done|]. split; [reflexivity|]. split; [reflexivity|].
  split; [exact H1|]. split; [exact H2|]. split; [exact H3|].
  split; [|split; [|split; [|split; [|split; [|split]]]]].
  - intros Hf. unfold maxConfigFps, js_or in Hcap. rewrite Hf in Hcap. by injection Hcap.
  - intros n Hn Hnz. unfold maxConfigFps, js_or in Hcap. rewrite Hn in Hcap.
    simpl in Hcap. destruct (n =? 0) eqn:Hz; [lia|]. simpl in Hcap. by injection Hcap.
  - intros f. rewrite step_data.
    by destruct (batch_done_fields 0 (group_clients (activeClients s)) f (counted s))
      as (_ & _ & _ & _ & _ & _ & _ & -> & _).
  - reflexivity.
  - reflexivity.
  - reflexivity.
  - unfold new_timers. simpl. by rewrite drop_app_length.
Qed.

Lemma reported_frame_rate_witness :
  ∃ fps, currentFps exact_div burst = Some fps ∧ 0 ≤ fps ≤ 15.
Proof.
  destruct (reported_frame_rate exact_div burst 15 exact_div_double)
    as (fps & st & Hfps & _ & _ & _ & _ & Hrange & _).
  - reflexivity.
  - vm_compute. discriminate.
  - vm_compute. discriminate.
  - exists fps. split; [assumption|]. apply Hrange. lia.
Defined.

(** C9 as stated fails, whatever the rounding of the division: ten frames in
    the half second after a reset, target 15. The quotient is 20, capped
    15; the reported rate is 10. *)
Lemma burst_rate_not_quotient :
  ¬ ∃ div64, double_division div64 ∧ spec_reported_rate div64.
Proof.
  intros (div64 & Hdiv & H). destruct (H burst 15) as (fps & Hfps & Heq).
  - apply (run_reachable _ _ (reachable_init 0)).
    apply all_enabledb_enabled. vm_compute. reflexivity.
  - vm_compute. reflexivity.
  - vm_compute. reflexivity.
  - destruct (currentFps_cases div64 Hdiv burst 15) as [_ Hopen].
    + vm_compute. reflexivity.
    + vm_compute. discriminate.
    + vm_compute. discriminate.
    + destruct Hopen as (raw & Hraw & _ & Hlo & Hhi).
      * vm_compute. reflexivity.
      * vm_compute. reflexivity.
      * assert ((inject_Z (frameCount burst) /
                 Qmax 1 (inject_Z (now burst - lastCounterReset burst) / 1000) == 10)%Q)
          as Hrate by (vm_compute; reflexivity).
        rewrite Hrate in Hlo, Hhi. unfold unit_roundoff in Hlo, Hhi.
        assert (raw = 10) as ->.
        { apply inject_Z_between; change (inject_Z 10) with 10%Q; lra. }
        rewrite Hraw in Hfps. injection Hfps as <-.
        vm_compute in Heq. discriminate Heq.
Qed.
End ServerProofs.

Module PlayerProofs.
Import Player.

(** ** The last valid frame is always a closed bitmap *)

Definition detached_last (p : player) : Prop :=
  ∀ b, lastValidFrame p = Some b → drawable b p = None.

Lemma frame_failed_detached p : detached_last p → detached_last (frame_failed p).
Proof.
  intros Hp b. unfold frame_failed.
  destruct (lastValidFrame p) as [b0|] eqn:Hb0.
  - destruct (negb (reads_closed b0 p)).
    + rewrite (Hp b0 Hb0). simpl. done.
    + simpl. rewrite Hb0. intros [= <-]. by apply Hp.
  - simpl. by rewrite Hb0.
Qed.

Lemma frame_failed_quiet p :
  detached_last p →
  rendered (frame_failed p) = rendered p
  ∧ canvas (frame_failed p) = canvas p
  ∧ (exposes_closed p = false → lastValidFrame (frame_failed p) = None).
Proof.
  intros Hp. unfold frame_failed, reads_closed.
  destruct (lastValidFrame p) as [b0|] eqn:Hb0.
  - rewrite (Hp b0 Hb0).
    destruct (exposes_closed p); simpl.
    + destruct (bitmaps p !! b0) as [[i []]|]; simpl; repeat split; done.
    + repeat split; done.
  - simpl. repeat split; done.
Qed.

Lemma on_decoded_detached i p : detached_last (on_decoded (Some i) p).
Proof.
  intros b. unfold on_decoded.
  set (b0 := fresh_bitmap p).
  destruct (streamCheckInterval _ && _); simpl; intros [= <-].
  all: unfold drawable, close_bitmap; simpl.
  all: by rewrite lookup_alter_eq, lookup_insert_eq.
Qed.

Lemma updateCanvasSize_detached w h p :
  detached_last p → detached_last (updateCanvasSize w h p).
Proof.
  intros Hp b. unfold updateCanvasSize.
  destruct ((w =? 0) || (h =? 0)); [apply Hp|]. simpl.
  destruct (lastValidFrame p) as [b0|] eqn:Hb0; [|simpl; by rewrite Hb0].
  destruct (negb _); simpl; [done|].
  rewrite Hb0. intros [= <-]. by apply Hp.
Qed.

Lemma step_detached ev p : detached_last p → detached_last (step ev p).
Proof.
  intros Hp. destruct ev as [data|[i|]| |w h|dt]; simpl.
  - unfold on_stream. destruct (processingFrame p); simpl; [exact Hp|].
    case_bool_decide; simpl; [|exact Hp].
    by apply frame_failed_detached.
  - apply on_decoded_detached.
  - by apply frame_failed_detached.
  - exact Hp.
  - by apply updateCanvasSize_detached.
  - exact Hp.
Qed.

Lemma reachable_detached p : reachable p → detached_last p.
Proof.
  induction 1 as [c t0|p ev Hr IH].
  - intros b. simpl. done.
  - by apply step_detached.
Qed.

(** C8, what the code does with a corrupt unit. In every state the player
    can reach, a unit shorter than 100 bytes, and a unit whose decode
    fails, are dropped, but the last good frame is not drawn again: the
    bitmap kept in [lastValidFrame] was closed right after it was stored,
    so the fallback either skips the draw or fails in it. Nothing is
    rendered, the visible canvas keeps what it had, and where bitmaps have
    no [closed] property [lastValidFrame] is reset to null. *)
Theorem corrupt_unit_not_rerendered (p : player) (data : list Byte.byte) :
  reachable p →
  processingFrame p = false →
  (length data < 100)%nat →
  (let p' := step (EStream data) p in
   rendered p' = rendered p ∧ canvas p' = canvas p
   ∧ processingFrame p' = false
   ∧ (exposes_closed p = false → lastValidFrame p' = None))
  ∧ (let p' := step (EDecoded None) p in
     rendered p' = rendered p ∧ canvas p' = canvas p
     ∧ (exposes_closed p = false → lastValidFrame p' = None)).
Proof.
  intros Hr Hidle Hsmall. pose proof (reachable_detached p Hr) as Hp. split.
  - simpl. unfold on_stream. rewrite Hidle, bool_decide_true by done. simpl.
    destruct (frame_failed_quiet (set_processing true (Some (now p + 500)) p))
      as (H1 & H2 & H3); [exact Hp|].
    split; [exact H1|]. split; [exact H2|]. split; [reflexivity|exact H3].
  - simpl. by apply frame_failed_quiet.
Qed.

Lemma corrupt_unit_not_rerendered_witness :
  rendered (step (EStream runt) (after_good false)) = [7%nat]
  ∧ lastValidFrame (step (EStream runt) (after_good false)) = None.
Proof.
  destruct (proj1 (corrupt_unit_not_rerendered (after_good false) runt
              (reachable_step _ _ (reachable_step _ _ (reachable_created false 0)))
              eq_refl ltac:(simpl; lia))) as (H1 & _ & _ & H4).
  split; [exact H1|exact (H4 eq_refl)].
Defined.

End PlayerProofs.
